(** * Static replication of CMS decompounded options

    A shallow embedding of [decompounded_options_eko.ipynb] over the real
    numbers.  Python floats are idealised as reals: every arithmetic
    operator is the exact one, the literals [1e-12], [1e-6], [0.04], [0.25]
    and [0.5] denote the decimal numbers they spell, and [np.log],
    [np.sqrt] are [ln] and [sqrt].  Division, logarithm and square root are
    the total functions of the Standard Library: where the floating-point
    operation gives [nan], [inf] or raises (a zero divisor, the logarithm
    of a non-positive number), the model still has a real value, and a
    statement that depends on such a value carries the hypotheses that keep
    it inside the domain where model and floating-point operation agree.
    The failures that depend on the data handed in, a label missing from
    the curve and a zero grid step, are modelled with [option]. *)

From Stdlib Require Import Reals Lra Lia ZArith List String Zfloor.
Import ListNotations.

Local Open Scope R_scope.

(** ** Numeric primitives *)

(** The float power [x ** y].  For a positive base it is [exp (y * ln x)];
    [0.0 ** y] is [1.0] for [y = 0] and [0.0] for a positive [y].  A
    negative exponent at base zero raises and a negative base with a
    fractional exponent leaves the reals: both lie outside the model. *)
Definition pow_float (x y : R) : R :=
  if Req_EM_T x 0 then (if Req_EM_T y 0 then 1 else 0) else Rpower x y.

(** [scipy.stats.norm.pdf] and [scipy.stats.norm.cdf] of the standard
    normal law.  The distribution function is one half plus the integral
    of the density from the origin. *)
Definition norm_pdf (t : R) : R := exp (- (t * t / 2)) / sqrt (2 * PI).

Lemma norm_pdf_continuity : continuity norm_pdf.
Proof.
  unfold norm_pdf. intro t.
  apply continuity_pt_mult.
  - apply (continuity_pt_comp (fun u => - (u * u / 2)) exp).
    + apply continuity_pt_opp.
      apply continuity_pt_mult; [| apply continuity_pt_const; intros a b; reflexivity].
      apply continuity_pt_mult; apply derivable_continuous_pt, derivable_pt_id.
    + apply derivable_continuous_pt, derivable_pt_exp.
  - apply continuity_pt_const; intros a b; reflexivity.
Qed.

Lemma continuity_integrable (f : R -> R) :
  continuity f -> forall a b, Riemann_integrable f a b.
Proof.
  intros Hc a b.
  destruct (Rle_dec a b) as [Hab | Hab].
  - apply continuity_implies_RiemannInt; [exact Hab | intros; apply Hc].
  - apply RiemannInt_P1.
    apply continuity_implies_RiemannInt; [lra | intros; apply Hc].
Qed.

(** The Riemann integral of a continuous function between two points, in
    either order. *)
Definition integral (f : R -> R) (Hc : continuity f) (a b : R) : R :=
  RiemannInt (continuity_integrable f Hc a b).

Definition norm_cdf (x : R) : R :=
  1 / 2 + integral norm_pdf norm_pdf_continuity 0 x.

(** ** Black-76 *)

Module Black76.

(** The attributes an [AbstractBlack76Model] instance holds after
    [__init__]. *)
Record Model : Set := mkModel {
  F : R;
  K : R;
  sigma : R;
  T : R;
  d1 : R;
  d2 : R;
  discount_factor : R
}.

Definition _calculate_d1 (F K sigma T : R) : R :=
  (ln (F / K) + sigma ^ 2 / 2 * T) / (sigma * sqrt T).

Definition _calculate_d2 (d1 sigma T : R) : R :=
  d1 - sigma * sqrt T.

(** [__init__]: the fields are set in the order of the source, [d2] reading
    the [d1] just stored. *)
Definition init (F K discount_factor sigma T : R) : Model :=
  let d1 := _calculate_d1 F K sigma T in
  let d2 := _calculate_d2 d1 sigma T in
  mkModel F K sigma T d1 d2 discount_factor.

(** Methods of [VanillaBlack76Model]. *)
Definition calculate_call_price (self : Model) : R :=
  discount_factor self *
  (F self * norm_cdf (d1 self) - K self * norm_cdf (d2 self)).

Definition calculate_put_price (self : Model) : R :=
  discount_factor self *
  (- F self * norm_cdf (- d1 self) + K self * norm_cdf (- d2 self)).

End Black76.

(** [VanillaOption.black_model]: the factory only forwards its arguments. *)
Definition black_model (F K discount_factor sigma T : R) : Black76.Model :=
  Black76.init F K discount_factor sigma T.

(** ** SABR implied volatility *)

Definition SABR_model (F K T alpha beta rho nu : R) : R :=
  let X := K in
  if Rlt_dec (Rabs (F - K)) 1e-12 then
    let numer1 := (((1 - beta) ^ 2) / 24) * alpha * alpha / pow_float F (2 - 2 * beta) in
    let numer2 := 0.25 * rho * beta * nu * alpha / pow_float F (1 - beta) in
    let numer3 := ((2 - 3 * rho * rho) / 24) * nu * nu in
    let VolAtm := alpha * (1 + (numer1 + numer2 + numer3) * T) / pow_float F (1 - beta) in
    VolAtm
  else
    let z := (nu / alpha) * pow_float (F * X) (0.5 * (1 - beta)) * ln (F / X) in
    let zhi := ln ((pow_float (1 - 2 * rho * z + z * z) 0.5 + z - rho) / (1 - rho)) in
    let numer1 := (((1 - beta) ^ 2) / 24) * ((alpha * alpha) / pow_float (F * X) (1 - beta)) in
    let numer2 := 0.25 * rho * beta * nu * alpha / pow_float (F * X) ((1 - beta) / 2) in
    let numer3 := ((2 - 3 * rho * rho) / 24) * nu * nu in
    let numer := alpha * (1 + (numer1 + numer2 + numer3) * T) * z in
    let denom1 := ((1 - beta) ^ 2 / 24) * (ln (F / X)) ^ 2 in
    let denom2 := (((1 - beta) ^ 4) / 1920) * ((ln (F / X)) ^ 4) in
    let denom := pow_float (F * X) ((1 - beta) / 2) * (1 + denom1 + denom2) * zhi in
    numer / denom.

(** ** Annuity factor and its derivatives *)

Definition IRR_0 (K m N : R) : R :=
  1 / K * (1 - 1 / pow_float (1 + K / m) (m * N)).

Definition IRR_1 (K m N : R) : R :=
  -1 / K * IRR_0 K m N + 1 / (K * m) * N * m / pow_float (1 + K / m) (N * m + 1).

Definition IRR_2 (K m N : R) : R :=
  -2 / K * IRR_1 K m N
  - 1 / (K * m * m) * (N * m) * (N * m + 1) / pow_float (1 + K / m) (N * m + 2).

(** ** Annuity-settled swaption price *)

Definition irr_settled_option_price
    (discount_factor F K sigma T m N : R) (swaption_type : string) : R :=
  let irr_0 := IRR_0 F m N in
  let discount_factor_numeraire := 1 in
  let black_model := black_model F K discount_factor_numeraire sigma T in
  let price :=
    if String.eqb swaption_type "receiver"
    then Black76.calculate_put_price black_model
    else Black76.calculate_call_price black_model in
  discount_factor * irr_0 * price.

(** ** Payoff and replication weights *)

(** The notebook's payoff [K^(1/p) - 0.04^(1/q)] with [p = 4], [q = 2]. *)
Definition g_0 (K : R) : R :=
  let p := 4 in
  let q := 2 in
  pow_float K (1 / p) - pow_float 0.04 (1 / q).

Definition g_1 (K : R) : R :=
  let p := 4 in
  let q := 2 in
  (1 / p) * pow_float K (1 / p - 1).

Definition g_2 (K : R) : R :=
  let p := 4 in
  let q := 2 in
  (1 / p) * (1 / p - 1) * pow_float K (1 / p - 2).

(** [h_0], [h_1], [h_2] read the module-level names [g_0], [g_1], [g_2]
    when they are called, so the payoff in force is whatever those names
    are bound to.  The binding is an explicit argument here. *)
Record Payoff : Type := mkPayoff {
  payoff_g_0 : R -> R;
  payoff_g_1 : R -> R;
  payoff_g_2 : R -> R
}.

Section Weights.

Variable g : Payoff.

Let g_0 := payoff_g_0 g.
Let g_1 := payoff_g_1 g.
Let g_2 := payoff_g_2 g.

Definition h_0 (K m N : R) : R :=
  g_0 K / IRR_0 K m N.

Definition h_1 (K m N : R) : R :=
  (IRR_0 K m N * g_1 K - g_0 K * IRR_1 K m N) / IRR_0 K m N ^ 2.

Definition h_2 (K m N : R) : R :=
  (IRR_0 K m N * g_2 K
   - IRR_2 K m N * g_0 K
   - 2 * IRR_1 K m N * g_1 K) / IRR_0 K m N ^ 2
  + 2 * IRR_1 K m N ^ 2 * g_0 K / IRR_0 K m N ^ 3.

End Weights.

(** The binding the notebook runs with. *)
Definition notebook_payoff : Payoff := mkPayoff g_0 g_1 g_2.

(** The binding of the linear payoff [g(K) = K]. *)
Definition linear_payoff : Payoff :=
  mkPayoff (fun K => K) (fun _ => 1) (fun _ => 0).

(** ** Curve access and forward swap rate *)

(** A row of the bootstrapped curve, with the two columns that are read. *)
Record Row : Set := mkRow {
  Forward_LIBOR : R;
  Discount_Factor_OIS : R
}.

(** The curve is indexed by time; a label that is absent is a [KeyError]. *)
Definition DataFrame : Type := R -> option Row.

(** [df.loc[labels, column]]: fails when some label is missing. *)
Fixpoint loc (df : DataFrame) (labels : list R) (column : Row -> R)
  : option (list R) :=
  match labels with
  | [] => Some []
  | t :: rest =>
      match df t, loc df rest column with
      | Some row, Some vs => Some (column row :: vs)
      | _, _ => None
      end
  end.

(** [np.arange(start, stop, step)] has [ceil((stop - start) / step)]
    elements, none when that number is negative, the [i]-th being
    [start + i * step].  A zero step is an error. *)
Definition arange (start stop step : R) : option (list R) :=
  if Req_EM_T step 0 then None
  else Some (map (fun i => start + INR i * step)
                 (seq 0 (Z.to_nat (Zceil ((stop - start) / step))))).

Definition np_sum (xs : list R) : R := fold_left Rplus xs 0.

(** Element-wise product of two series over the same labels. *)
Definition series_mul (xs ys : list R) : list R :=
  map (fun p => fst p * snd p) (combine xs ys).

Definition scale (c : R) (xs : list R) : list R := map (Rmult c) xs.

Definition compute_forward_swap_rate
    (expiry tenor : R) (df_discount_factors : DataFrame)
    (floating_leg_period fixed_leg_period : R) : option R :=
  let swap_end_time := expiry + tenor in
  let floating_leg_term :=
    arange (expiry + floating_leg_period)
           (swap_end_time + floating_leg_period)
           floating_leg_period in
  let fixed_leg_terms :=
    arange (expiry + fixed_leg_period)
           (swap_end_time + fixed_leg_period)
           fixed_leg_period in
  match floating_leg_term, fixed_leg_terms with
  | Some floating_leg_term, Some fixed_leg_terms =>
      match loc df_discount_factors floating_leg_term Forward_LIBOR,
            loc df_discount_factors floating_leg_term Discount_Factor_OIS,
            loc df_discount_factors fixed_leg_terms Discount_Factor_OIS with
      | Some libor, Some ois_float, Some ois_fixed =>
          let floating_leg_pv :=
            np_sum (series_mul (scale floating_leg_period libor) ois_float) in
          let fixed_leg_pv := np_sum (scale fixed_leg_period ois_fixed) in
          Some (floating_leg_pv / fixed_leg_pv)
      | _, _, _ => None
      end
  | _, _ => None
  end.

(** ** Replication integrals *)

(** An integration limit: a finite one or [float("inf")]. *)
Inductive limit : Set :=
| Fin (r : R)
| PInf.

(** The calibrated SABR surface: the four interpolators of the notebook,
    each giving the first component of the array [interp2d] returns. *)
Record SabrSurface : Type := mkSurface {
  sabr_alpha_interp : R -> R -> R;
  sabr_beta_interp : R -> R -> R;
  sabr_rho_interp : R -> R -> R;
  sabr_nu_interp : R -> R -> R
}.

Section Replication.

(** [scipy.integrate.quad]: from an integrand and two limits to the pair
    of the integral's value and an error estimate. *)
Variable quad : (R -> R) -> limit -> limit -> R * R.
Variable surface : SabrSurface.

Definition compute_options_payoff_1
    (expiry tenor payment_period discount_factor : R)
    (df_discount_factors : DataFrame) : option R :=
  match compute_forward_swap_rate
          expiry tenor df_discount_factors payment_period payment_period with
  | None => None
  | Some F =>
      let alpha := sabr_alpha_interp surface expiry tenor in
      let beta := sabr_beta_interp surface expiry tenor in
      let rho := sabr_rho_interp surface expiry tenor in
      let nu := sabr_nu_interp surface expiry tenor in
      let first_term := discount_factor * g_0 F in
      let second_term := 0 in
      let third_term :=
        fst (quad
               (fun x =>
                  h_2 notebook_payoff x (1 / payment_period) tenor
                  * irr_settled_option_price
                      discount_factor F x
                      (SABR_model F x expiry alpha beta rho nu)
                      expiry (1 / payment_period) tenor "receiver")
               (Fin 1e-6) (Fin F)) in
      let fourth_term :=
        fst (quad
               (fun x =>
                  h_2 notebook_payoff x (1 / payment_period) tenor
                  * irr_settled_option_price
                      discount_factor F x
                      (SABR_model F x expiry alpha beta rho nu)
                      expiry (1 / payment_period) tenor "payer")
               (Fin F) PInf) in
      Some (first_term + second_term + third_term + fourth_term)
  end.

Definition compute_options_payoff_2
    (L expiry tenor payment_period discount_factor : R)
    (df_discount_factors : DataFrame) : option R :=
  match compute_forward_swap_rate
          expiry tenor df_discount_factors payment_period payment_period with
  | None => None
  | Some F =>
      let alpha := sabr_alpha_interp surface expiry tenor in
      let beta := sabr_beta_interp surface expiry tenor in
      let rho := sabr_rho_interp surface expiry tenor in
      let nu := sabr_nu_interp surface expiry tenor in
      let first_term :=
        irr_settled_option_price
          discount_factor F L
          (SABR_model F L expiry alpha beta rho nu)
          expiry (1 / payment_period) tenor "payer"
        * h_1 notebook_payoff L (1 / payment_period) tenor in
      let second_term :=
        fst (quad
               (fun x =>
                  h_2 notebook_payoff x (1 / payment_period) tenor
                  * irr_settled_option_price
                      discount_factor F x
                      (SABR_model F x expiry alpha beta rho nu)
                      expiry (1 / payment_period) tenor "payer")
               (Fin F) PInf) in
      Some (first_term + second_term)
  end.

End Replication.

(** ** Formulas of the specification and sample data *)

(** The Black-76 price the side selector picks: the put for the exact
    string ["receiver"], the call for everything else. *)
Definition black_price_for_side (swaption_type : string) (bm : Black76.Model) : R :=
  if string_dec swaption_type "receiver"
  then Black76.calculate_put_price bm
  else Black76.calculate_call_price bm.

(** The Black-76 moneyness terms and undiscounted prices, as formulas. *)
Definition black76_d1 (F K sigma T : R) : R :=
  (ln (F / K) + sigma ^ 2 * T / 2) / (sigma * sqrt T).

Definition black76_d2 (F K sigma T : R) : R :=
  black76_d1 F K sigma T - sigma * sqrt T.

Definition black76_call (F K sigma T : R) : R :=
  F * norm_cdf (black76_d1 F K sigma T) - K * norm_cdf (black76_d2 F K sigma T).

Definition black76_put (F K sigma T : R) : R :=
  K * norm_cdf (- black76_d2 F K sigma T) - F * norm_cdf (- black76_d1 F K sigma T).

(** The formulas the specification names, written after its words. *)
Definition hagan_z (F K alpha beta nu : R) : R :=
  (nu / alpha) * pow_float (F * K) ((1 - beta) / 2) * ln (F / K).

Definition hagan_chi (rho z : R) : R :=
  ln ((sqrt (1 - 2 * rho * z + z ^ 2) + z - rho) / (1 - rho)).

Definition sabr_atm_expansion (F T alpha beta rho nu : R) : R :=
  let numer1 := (1 - beta) ^ 2 / 24 * alpha ^ 2 / pow_float F (2 - 2 * beta) in
  let numer2 := rho * beta * nu * alpha / (4 * pow_float F (1 - beta)) in
  let numer3 := (2 - 3 * rho ^ 2) / 24 * nu ^ 2 in
  alpha * (1 + (numer1 + numer2 + numer3) * T) / pow_float F (1 - beta).

Definition sabr_hagan_expansion (F K T alpha beta rho nu : R) : R :=
  let z := hagan_z F K alpha beta nu in
  let chi := hagan_chi rho z in
  let FK := pow_float (F * K) ((1 - beta) / 2) in
  let numer1 := (1 - beta) ^ 2 / 24 * (alpha ^ 2 / pow_float (F * K) (1 - beta)) in
  let numer2 := rho * beta * nu * alpha / (4 * FK) in
  let numer3 := (2 - 3 * rho ^ 2) / 24 * nu ^ 2 in
  let logs := 1 + (1 - beta) ^ 2 / 24 * ln (F / K) ^ 2
                + (1 - beta) ^ 4 / 1920 * ln (F / K) ^ 4 in
  alpha * (1 + (numer1 + numer2 + numer3) * T) * z / (FK * logs * chi).

(** The floored-payoff replication with the integral starting at [lower]:
    the point term at the floor [L] plus the payer-side integral over
    [[lower, +oo)]. *)
Definition floored_replication
    (quad : (R -> R) -> limit -> limit -> R * R) (surface : SabrSurface)
    (lower L expiry tenor payment_period discount_factor F : R) : R :=
  h_1 notebook_payoff L (1 / payment_period) tenor
  * irr_settled_option_price
      discount_factor F L
      (SABR_model F L expiry
         (sabr_alpha_interp surface expiry tenor)
         (sabr_beta_interp surface expiry tenor)
         (sabr_rho_interp surface expiry tenor)
         (sabr_nu_interp surface expiry tenor))
      expiry (1 / payment_period) tenor "payer"
  + fst (quad
           (fun x =>
              h_2 notebook_payoff x (1 / payment_period) tenor
              * irr_settled_option_price
                  discount_factor F x
                  (SABR_model F x expiry
                     (sabr_alpha_interp surface expiry tenor)
                     (sabr_beta_interp surface expiry tenor)
                     (sabr_rho_interp surface expiry tenor)
                     (sabr_nu_interp surface expiry tenor))
                  expiry (1 / payment_period) tenor "payer")
           (Fin lower) PInf).

(** An integrator that reports the lower limit it was handed. *)
Definition lower_limit_probe (f : R -> R) (a b : limit) : R * R :=
  (match a with Fin r => r | PInf => 0 end, 0).

(** A two-row curve on a semi-annual grid, a flat SABR surface and a
    one-point quadrature rule, to run the pricers on. *)
Definition sample_curve : DataFrame :=
  fun t =>
    if Req_EM_T t 1.5 then Some (mkRow 0.03 0.96)
    else if Req_EM_T t 2 then Some (mkRow 0.05 0.94)
    else None.

Definition sample_surface : SabrSurface :=
  mkSurface (fun _ _ => 0.2) (fun _ _ => 0.9) (fun _ _ => -0.3) (fun _ _ => 0.4).

Definition midpoint_rule (f : R -> R) (a b : limit) : R * R :=
  match a, b with
  | Fin a, Fin b => ((b - a) * f ((a + b) / 2), 0)
  | _, _ => (0, 0)
  end.

(** The present value of [n] payments of [1 / m], the [i]-th discounted
    by [(1 + K / m) ^ i]. *)
Fixpoint annuity_pv (K m : R) (n : nat) : R :=
  match n with
  | O => 0
  | S k => annuity_pv K m k + 1 / m / (1 + K / m) ^ S k
  end.

(** The rows the curve holds at a list of labels, when it holds them all. *)
Fixpoint rows_at (df : DataFrame) (labels : list R) : option (list Row) :=
  match labels with
  | [] => Some []
  | t :: rest =>
      match df t, rows_at df rest with
      | Some row, Some rows => Some (row :: rows)
      | _, _ => None
      end
  end.

(** The at-the-money volatility of the lognormal ([beta = 1]) SABR model. *)
Definition lognormal_atm_vol (T alpha rho nu : R) : R :=
  alpha * (1 + (rho * nu * alpha / 4 + (2 - 3 * rho ^ 2) / 24 * nu ^ 2) * T).

(** * Properties *)

(** ** Side selection and scaling of the annuity-settled price *)

Lemma eqb_payer_receiver : String.eqb "payer" "receiver" = false.
Proof. reflexivity. Qed.

Lemma black76_model_d1 (F K discount_factor sigma T : R) :
  Black76.d1 (black_model F K discount_factor sigma T) = black76_d1 F K sigma T.
Proof.
  unfold black_model, Black76.init, Black76._calculate_d1, black76_d1; cbn.
  f_equal. unfold Rdiv. ring.
Qed.

Lemma black76_model_d2 (F K discount_factor sigma T : R) :
  Black76.d2 (black_model F K discount_factor sigma T) = black76_d2 F K sigma T.
Proof.
  unfold black76_d2. rewrite <- (black76_model_d1 F K discount_factor).
  reflexivity.
Qed.

Lemma black76_unit_numeraire_call (F K sigma T : R) :
  Black76.calculate_call_price (black_model F K 1 sigma T)
    = black76_call F K sigma T.
Proof.
  unfold Black76.calculate_call_price, black76_call.
  rewrite black76_model_d1, black76_model_d2. cbn. ring.
Qed.

Lemma black76_unit_numeraire_put (F K sigma T : R) :
  Black76.calculate_put_price (black_model F K 1 sigma T)
    = black76_put F K sigma T.
Proof.
  unfold Black76.calculate_put_price, black76_put.
  rewrite black76_model_d1, black76_model_d2. cbn. ring.
Qed.

(** C2: for every input tuple, [irr_settled_option_price] is the external
    discount factor times [IRR_0] at the forward [F] (not at the strike)
    times the Black-76 price of the selected side, the put for receiver and
    the call for payer.  That price comes from a model whose numeraire
    discount factor is exactly 1, so it is the undiscounted Black-76
    formula. *)
Theorem irr_settled_option_price_scaling :
  forall discount_factor F K sigma T m N,
    Black76.discount_factor (black_model F K 1 sigma T) = 1 /\
    (forall swaption_type,
       irr_settled_option_price discount_factor F K sigma T m N swaption_type
         = discount_factor * IRR_0 F m N
           * black_price_for_side swaption_type (black_model F K 1 sigma T)) /\
    irr_settled_option_price discount_factor F K sigma T m N "receiver"
      = discount_factor * IRR_0 F m N * black76_put F K sigma T /\
    irr_settled_option_price discount_factor F K sigma T m N "payer"
      = discount_factor * IRR_0 F m N * black76_call F K sigma T.
Proof.
  intros discount_factor F K sigma T m N.
  split; [reflexivity |].
  split.
  - intros swaption_type.
    unfold irr_settled_option_price, black_price_for_side.
    destruct (string_dec swaption_type "receiver") as [-> | Hne].
    + reflexivity.
    + apply String.eqb_neq in Hne. rewrite Hne. reflexivity.
  - split.
    + rewrite <- black76_unit_numeraire_put. reflexivity.
    + rewrite <- black76_unit_numeraire_call. reflexivity.
Qed.

(** C9: the side selector is not validated.  Every [swaption_type] other
    than the exact string ["receiver"] yields the payer price, the one
    built on the Black-76 call; the embedding has no failure branch for an
    unknown side, the result is always a price. *)
Theorem irr_settled_option_price_unvalidated_side :
  forall discount_factor F K sigma T m N swaption_type,
    swaption_type <> "receiver"%string ->
    irr_settled_option_price discount_factor F K sigma T m N swaption_type
      = irr_settled_option_price discount_factor F K sigma T m N "payer"
    /\ irr_settled_option_price discount_factor F K sigma T m N swaption_type
      = discount_factor * IRR_0 F m N
        * Black76.calculate_call_price (black_model F K 1 sigma T).
Proof.
  intros discount_factor F K sigma T m N swaption_type Hne.
  unfold irr_settled_option_price.
  apply String.eqb_neq in Hne. rewrite Hne, eqb_payer_receiver.
  split; reflexivity.
Qed.

Lemma irr_settled_option_price_unvalidated_side_witness :
  irr_settled_option_price 0.9 0.04 0.03 0.2 5 2 10 "reciever"
    = irr_settled_option_price 0.9 0.04 0.03 0.2 5 2 10 "payer"
  /\ irr_settled_option_price 0.9 0.04 0.03 0.2 5 2 10 "reciever"
    = 0.9 * IRR_0 0.04 2 10
      * Black76.calculate_call_price (black_model 0.04 0.03 1 0.2 5).
Proof.
  apply (irr_settled_option_price_unvalidated_side
           0.9 0.04 0.03 0.2 5 2 10 "reciever").
  discriminate.
Defined.

(** ** The two branches of the SABR formula *)

Lemma pow_float_pos (x y : R) : 0 < x -> pow_float x y = Rpower x y.
Proof.
  intros Hx. unfold pow_float.
  destruct (Req_EM_T x 0) as [E | _]; [lra | reflexivity].
Qed.

(** On a non-negative base, [x ** 0.5] is the square root. *)
Lemma pow_float_half (x : R) : 0 <= x -> pow_float x 0.5 = sqrt x.
Proof.
  intros [Hx | <-].
  - rewrite pow_float_pos by exact Hx.
    replace 0.5 with (/ 2) by lra.
    apply Rpower_sqrt; exact Hx.
  - unfold pow_float.
    destruct (Req_EM_T 0 0) as [_ | C]; [| contradiction C; reflexivity].
    destruct (Req_EM_T 0.5 0) as [E | _]; [lra |].
    symmetry; apply sqrt_0.
Qed.

(** The radicand of the SABR [chi] term is non-negative for a correlation
    in [[-1, 1]]. *)
Lemma sabr_radicand_nonneg (rho z : R) :
  -1 <= rho <= 1 -> 0 <= 1 - 2 * rho * z + z * z.
Proof.
  intros H.
  assert (Hsq : 0 <= (z - rho) ^ 2) by apply pow2_ge_0.
  assert (Hrho : rho * rho <= 1) by nra.
  nra.
Qed.

Lemma quarter_numerator (a b c d e : R) :
  a * b * c * d / (4 * e) = 0.25 * a * b * c * d / e.
Proof.
  unfold Rdiv. rewrite Rinv_mult.
  replace 0.25 with (/ 4) by lra. ring.
Qed.

Lemma SABR_model_atm (F K T alpha beta rho nu : R) :
  Rabs (F - K) < 1e-12 ->
  SABR_model F K T alpha beta rho nu = sabr_atm_expansion F T alpha beta rho nu.
Proof.
  intros Hband. unfold SABR_model, sabr_atm_expansion.
  destruct (Rlt_dec (Rabs (F - K)) 1e-12) as [_ | C]; [| contradiction].
  cbv zeta.
  rewrite quarter_numerator.
  replace ((1 - beta) ^ 2 / 24 * alpha ^ 2 / pow_float F (2 - 2 * beta))
    with ((1 - beta) ^ 2 / 24 * alpha * alpha / pow_float F (2 - 2 * beta))
    by (unfold Rdiv; ring).
  replace ((2 - 3 * rho ^ 2) / 24 * nu ^ 2)
    with ((2 - 3 * rho * rho) / 24 * nu * nu)
    by (unfold Rdiv; ring).
  reflexivity.
Qed.

Lemma SABR_model_hagan (F K T alpha beta rho nu : R) :
  -1 <= rho <= 1 ->
  ~ Rabs (F - K) < 1e-12 ->
  SABR_model F K T alpha beta rho nu = sabr_hagan_expansion F K T alpha beta rho nu.
Proof.
  intros Hrho Hout. unfold SABR_model, sabr_hagan_expansion, hagan_chi, hagan_z.
  destruct (Rlt_dec (Rabs (F - K)) 1e-12) as [C | _]; [contradiction |].
  cbv zeta.
  replace (0.5 * (1 - beta)) with ((1 - beta) / 2) by lra.
  set (FK := pow_float (F * K) ((1 - beta) / 2)).
  set (z := nu / alpha * FK * ln (F / K)).
  rewrite pow_float_half by (apply sabr_radicand_nonneg; exact Hrho).
  replace (z ^ 2) with (z * z) by ring.
  set (chi := ln ((sqrt (1 - 2 * rho * z + z * z) + z - rho) / (1 - rho))).
  replace (0.25 * rho * beta * nu * alpha / FK)
    with (rho * beta * nu * alpha / (4 * FK))
    by apply quarter_numerator.
  replace (alpha * alpha) with (alpha ^ 2) by ring.
  replace ((2 - 3 * rho * rho) / 24 * nu * nu)
    with ((2 - 3 * rho ^ 2) / 24 * nu ^ 2)
    by (unfold Rdiv; ring).
  reflexivity.
Qed.

(** C4: [SABR_model] has two branches, selected by [|F - K| < 1e-12].
    Inside the band it returns the at-the-money expansion
    [alpha (1 + (numer1 + numer2 + numer3) T) / F^(1 - beta)]; outside it
    returns the Hagan expansion built from
    [z = (nu / alpha) (F K)^((1 - beta) / 2) ln (F / K)] and
    [chi = ln ((sqrt (1 - 2 rho z + z^2) + z - rho) / (1 - rho))], the
    square root standing for the source's [** 0.5] on the non-negative
    radicand a correlation in [[-1, 1]] gives. *)
Theorem SABR_model_two_branches :
  forall F K T alpha beta rho nu,
    -1 <= rho <= 1 ->
    (Rabs (F - K) < 1e-12 ->
       SABR_model F K T alpha beta rho nu
         = sabr_atm_expansion F T alpha beta rho nu) /\
    (~ Rabs (F - K) < 1e-12 ->
       SABR_model F K T alpha beta rho nu
         = sabr_hagan_expansion F K T alpha beta rho nu).
Proof.
  intros F K T alpha beta rho nu Hrho. split.
  - apply SABR_model_atm.
  - apply SABR_model_hagan; exact Hrho.
Qed.

Lemma Rabs_diff_small (a b eps : R) :
  - eps < a - b < eps -> Rabs (a - b) < eps.
Proof. intros H. apply Rabs_def1; lra. Qed.

Lemma SABR_model_two_branches_witness :
  -1 <= -0.3 <= 1 /\
  SABR_model 0.04 0.04 5 0.2 0.9 (-0.3) 0.4
    = sabr_atm_expansion 0.04 5 0.2 0.9 (-0.3) 0.4 /\
  SABR_model 0.04 0.03 5 0.2 0.9 (-0.3) 0.4
    = sabr_hagan_expansion 0.04 0.03 5 0.2 0.9 (-0.3) 0.4.
Proof.
  assert (Hrho : -1 <= -0.3 <= 1) by lra.
  split; [exact Hrho | split].
  - apply (SABR_model_two_branches 0.04 0.04 5 0.2 0.9 (-0.3) 0.4 Hrho).
    apply Rabs_diff_small; lra.
  - apply (SABR_model_two_branches 0.04 0.03 5 0.2 0.9 (-0.3) 0.4 Hrho).
    intros C. apply Rabs_def2 in C. lra.
Defined.

(** C10: inside the at-the-money band the result does not depend on the
    strike: two strikes within [1e-12] of the forward give the same
    volatility, since that branch reads [F] only. *)
Theorem SABR_model_atm_strike_independent :
  forall F T alpha beta rho nu K1 K2,
    Rabs (F - K1) < 1e-12 ->
    Rabs (F - K2) < 1e-12 ->
    SABR_model F K1 T alpha beta rho nu = SABR_model F K2 T alpha beta rho nu.
Proof.
  intros F T alpha beta rho nu K1 K2 H1 H2.
  rewrite !SABR_model_atm by assumption.
  reflexivity.
Qed.

Lemma SABR_model_atm_strike_independent_witness :
  SABR_model 0.04 0.04 5 0.2 0.9 (-0.3) 0.4
    = SABR_model 0.04 (0.04 + 1e-13) 5 0.2 0.9 (-0.3) 0.4.
Proof.
  apply (SABR_model_atm_strike_independent 0.04 5 0.2 0.9 (-0.3) 0.4
           0.04 (0.04 + 1e-13));
    apply Rabs_diff_small; lra.
Defined.

(** ** Symmetry of the normal distribution function *)

Section EvenIntegrand.

Variable f : R -> R.
Hypothesis f_cont : continuity f.
Hypothesis f_even : forall t, f (- t) = f t.

Let I (a b : R) : R := integral f f_cont a b.

Lemma integral_chasles (a b c : R) : I a b + I b c = I a c.
Proof. unfold I, integral. apply RiemannInt_P26. Qed.

(** Over a window [[-M, M]] the primitive [P] of an even function makes
    [P t + P (- t)] constant: its derivative [f t - f (- t)] vanishes. *)
Lemma integral_symmetric_window (M x : R) :
  0 <= x <= M -> I (- M) x + I (- M) (- x) = 2 * I (- M) 0.
Proof.
  intros Hx.
  assert (h : - M <= M) by lra.
  assert (C0 : forall t, - M <= t <= M -> continuity_pt f t)
    by (intros; apply f_cont).
  set (P := primitive h (FTC_P1 h C0)).
  assert (HP : forall t, - M <= t <= M -> P t = I (- M) t).
  { intros t [Ht1 Ht2]. unfold P, primitive.
    destruct (Rle_dec (- M) t) as [r | n]; [| contradiction].
    destruct (Rle_dec t M) as [r0 | n]; [| contradiction].
    unfold I, integral. apply RiemannInt_P5. }
  assert (HdP : forall t, - M <= t <= M -> derivable_pt_lim P t (f t))
    by (intros; apply RiemannInt_P28; assumption).
  set (H := fun t => P t + P (- t)).
  assert (HdH : forall t, 0 <= t <= x -> derivable_pt_lim H t ((fun _ => 0) t)).
  { intros t Ht. unfold H.
    replace 0 with (f t + f (- t) * -1) by (rewrite f_even; ring).
    apply (derivable_pt_lim_plus P (fun u => P (- u))).
    - apply HdP; lra.
    - apply (derivable_pt_lim_comp Ropp P).
      + apply (derivable_pt_lim_opp id t 1), derivable_pt_lim_id.
      + apply HdP; lra. }
  assert (HH : H x = H 0).
  { destruct (Req_dec x 0) as [-> | Hne]; [reflexivity |].
    destruct (MVT_cor2 H (fun _ => 0) 0 x) as [c [Hc _]]; [lra | exact HdH |].
    lra. }
  unfold H in HH. rewrite Ropp_0 in HH.
  rewrite !HP in HH by lra. lra.
Qed.

Lemma integral_odd (x : R) : I 0 (- x) = - I 0 x.
Proof.
  assert (Hpos : forall y, 0 <= y -> I 0 (- y) = - I 0 y).
  { intros y Hy.
    pose proof (integral_symmetric_window y y (conj Hy (Rle_refl y))) as Hw.
    pose proof (integral_chasles (- y) 0 y) as H1.
    pose proof (integral_chasles (- y) 0 (- y)) as H2.
    lra. }
  destruct (Rle_dec 0 x) as [Hx | Hx].
  - apply Hpos; exact Hx.
  - assert (Hx' : 0 <= - x) by lra.
    pose proof (Hpos (- x) Hx') as Hn.
    rewrite Ropp_involutive in Hn. lra.
Qed.

End EvenIntegrand.

Lemma norm_pdf_even (t : R) : norm_pdf (- t) = norm_pdf t.
Proof.
  unfold norm_pdf.
  replace (- t * - t) with (t * t) by ring.
  reflexivity.
Qed.

(** [Phi x + Phi (- x) = 1]. *)
Lemma norm_cdf_symmetry (x : R) : norm_cdf x + norm_cdf (- x) = 1.
Proof.
  unfold norm_cdf.
  rewrite (integral_odd norm_pdf norm_pdf_continuity norm_pdf_even x).
  lra.
Qed.

Lemma norm_cdf_at_zero : norm_cdf 0 = 1 / 2.
Proof.
  unfold norm_cdf, integral. rewrite RiemannInt_P9. lra.
Qed.

(** ** Put-call parity *)

Lemma black76_call_minus_put (F K discount_factor sigma T : R) :
  Black76.calculate_call_price (black_model F K discount_factor sigma T)
  - Black76.calculate_put_price (black_model F K discount_factor sigma T)
  = discount_factor * (F - K).
Proof.
  unfold Black76.calculate_call_price, Black76.calculate_put_price,
    black_model, Black76.init. cbn.
  set (d1 := Black76._calculate_d1 F K sigma T).
  set (d2 := Black76._calculate_d2 d1 sigma T).
  pose proof (norm_cdf_symmetry d1) as H1.
  pose proof (norm_cdf_symmetry d2) as H2.
  replace (norm_cdf (- d1)) with (1 - norm_cdf d1) by lra.
  replace (norm_cdf (- d2)) with (1 - norm_cdf d2) by lra.
  ring.
Qed.

(** C6: put-call parity of the annuity-settled pricer.  For positive [F],
    [K], [sigma], [T], [m], [N] and any discount factor, the payer price
    minus the receiver price is [DF * IRR_0(F, m, N) * (F - K)]. *)
Theorem irr_settled_put_call_parity :
  forall discount_factor F K sigma T m N,
    0 < F -> 0 < K -> 0 < sigma -> 0 < T -> 0 < m -> 0 < N ->
    irr_settled_option_price discount_factor F K sigma T m N "payer"
    - irr_settled_option_price discount_factor F K sigma T m N "receiver"
    = discount_factor * IRR_0 F m N * (F - K).
Proof.
  intros discount_factor F K sigma T m N HF HK Hs HT Hm HN.
  unfold irr_settled_option_price.
  rewrite eqb_payer_receiver, String.eqb_refl.
  rewrite <- Rmult_minus_distr_l, black76_call_minus_put.
  ring.
Qed.

Lemma irr_settled_put_call_parity_witness :
  irr_settled_option_price 0.9 0.04 0.03 0.2 5 2 10 "payer"
  - irr_settled_option_price 0.9 0.04 0.03 0.2 5 2 10 "receiver"
  = 0.9 * IRR_0 0.04 2 10 * (0.04 - 0.03).
Proof.
  apply (irr_settled_put_call_parity 0.9 0.04 0.03 0.2 5 2 10); lra.
Defined.

(** ** The annuity factor: derivatives and limit *)

Section DerivativeRules.

Variables (f g : R -> R) (x lf lg : R).
Hypothesis Hf : derivable_pt_lim f x lf.
Hypothesis Hg : derivable_pt_lim g x lg.

Lemma dlim_plus : derivable_pt_lim (fun t => f t + g t) x (lf + lg).
Proof. exact (derivable_pt_lim_plus f g x lf lg Hf Hg). Qed.

Lemma dlim_minus : derivable_pt_lim (fun t => f t - g t) x (lf - lg).
Proof. exact (derivable_pt_lim_minus f g x lf lg Hf Hg). Qed.

Lemma dlim_mult :
  derivable_pt_lim (fun t => f t * g t) x (lf * g x + f x * lg).
Proof. exact (derivable_pt_lim_mult f g x lf lg Hf Hg). Qed.

Lemma dlim_div :
  g x <> 0 ->
  derivable_pt_lim (fun t => f t / g t) x
    ((lf * g x - lg * f x) / Rsqr (g x)).
Proof. intros H0. exact (derivable_pt_lim_div f g x lf lg Hf Hg H0). Qed.

End DerivativeRules.

Lemma dlim_const (c x : R) : derivable_pt_lim (fun _ => c) x 0.
Proof. exact (derivable_pt_lim_const c x). Qed.

Lemma dlim_id (x : R) : derivable_pt_lim (fun t => t) x 1.
Proof. exact (derivable_pt_lim_id x). Qed.

Lemma dlim_value (f : R -> R) (x l l' : R) :
  derivable_pt_lim f x l -> l = l' -> derivable_pt_lim f x l'.
Proof. intros H <-. exact H. Qed.

(** The compounding factor [(1 + k / m) ^ y] as a function of the rate. *)
Lemma dlim_compound (m y K : R) :
  0 < 1 + K / m ->
  derivable_pt_lim (fun k => Rpower (1 + k / m) y) K
    (y * Rpower (1 + K / m) (y - 1) * / m).
Proof.
  intros Hpos.
  apply (derivable_pt_lim_comp (fun k => 1 + k / m) (fun u => Rpower u y)).
  - eapply dlim_value.
    + apply dlim_plus; [apply dlim_const |].
      apply dlim_mult; [apply dlim_id | apply dlim_const].
    + cbv beta; ring.
  - apply derivable_pt_lim_power; exact Hpos.
Qed.

Lemma compound_pos (K m : R) : 0 < K -> 0 < m -> 0 < 1 + K / m.
Proof.
  intros HK Hm.
  assert (0 < K / m) by (apply Rdiv_lt_0_compat; assumption).
  lra.
Qed.

Lemma Rpower_positive (x y : R) : 0 < Rpower x y.
Proof. unfold Rpower. apply exp_pos. Qed.

Lemma Rpower_next (x y : R) : 0 < x -> Rpower x (y + 1) = Rpower x y * x.
Proof. intros Hx. rewrite Rpower_plus, Rpower_1 by exact Hx. reflexivity. Qed.

Lemma IRR_0_deriv (K m N : R) :
  0 < K -> 0 < m -> 0 < N ->
  derivable_pt_lim (fun k => IRR_0 k m N) K (IRR_1 K m N).
Proof.
  intros HK Hm HN.
  pose proof (compound_pos K m HK Hm) as Hu.
  apply (derivable_pt_lim_locally_ext
           (fun k => 1 / k * (1 - 1 / Rpower (1 + k / m) (m * N)))
           _ K (K / 2) (K + 1)); [lra | |].
  - intros z Hz. unfold IRR_0.
    rewrite pow_float_pos by (apply compound_pos; lra). reflexivity.
  - eapply dlim_value.
    + apply dlim_mult.
      * apply dlim_div; [apply dlim_const | apply dlim_id | lra].
      * apply dlim_minus; [apply dlim_const |].
        apply dlim_div; [apply dlim_const | apply dlim_compound; exact Hu |].
        apply Rgt_not_eq, Rpower_positive.
    + cbv beta; unfold IRR_1, IRR_0.
      rewrite !pow_float_pos by exact Hu.
      replace (N * m + 1) with (m * N + 1) by ring.
      rewrite Rpower_next by exact Hu.
      replace (m * N - 1) with (m * N + - (1)) by ring.
      rewrite Rpower_plus, Rpower_Ropp, Rpower_1 by exact Hu.
      pose proof (Rpower_positive (1 + K / m) (m * N)) as Hp.
      set (p := Rpower (1 + K / m) (m * N)) in *.
      unfold Rsqr. field. repeat split; lra.
Qed.

Lemma IRR_1_deriv (K m N : R) :
  0 < K -> 0 < m -> 0 < N ->
  derivable_pt_lim (fun k => IRR_1 k m N) K (IRR_2 K m N).
Proof.
  intros HK Hm HN.
  pose proof (compound_pos K m HK Hm) as Hu.
  apply (derivable_pt_lim_locally_ext
           (fun k => -1 / k * IRR_0 k m N
                     + 1 / (k * m) * N * m / Rpower (1 + k / m) (N * m + 1))
           _ K (K / 2) (K + 1)); [lra | |].
  - intros z Hz. unfold IRR_1.
    rewrite (pow_float_pos (1 + z / m)) by (apply compound_pos; lra).
    reflexivity.
  - eapply dlim_value.
    + apply dlim_plus.
      * apply dlim_mult.
        -- apply dlim_div; [apply dlim_const | apply dlim_id | lra].
        -- apply IRR_0_deriv; assumption.
      * apply dlim_div.
        -- apply dlim_mult; [| apply dlim_const].
           apply dlim_mult; [| apply dlim_const].
           apply dlim_div; [apply dlim_const | | cbv beta; nra].
           apply dlim_mult; [apply dlim_id | apply dlim_const].
        -- apply dlim_compound; exact Hu.
        -- apply Rgt_not_eq, Rpower_positive.
    + cbv beta. unfold IRR_2, IRR_1.
      rewrite !pow_float_pos by exact Hu.
      replace (N * m + 2) with (N * m + 1 + 1) by ring.
      replace (N * m + 1 - 1) with (N * m) by ring.
      rewrite !Rpower_next by exact Hu.
      pose proof (Rpower_positive (1 + K / m) (N * m)) as Hp.
      set (p := Rpower (1 + K / m) (N * m)) in *.
      set (I0 := IRR_0 K m N).
      unfold Rsqr. field. repeat split; lra.
Qed.

Lemma IRR_1_recursive (K m N : R) :
  0 < K -> 0 < m ->
  IRR_1 K m N
    = - IRR_0 K m N / K + N / (K * Rpower (1 + K / m) (N * m + 1)).
Proof.
  intros HK Hm. unfold IRR_1.
  rewrite (pow_float_pos (1 + K / m)) by (apply compound_pos; assumption).
  pose proof (Rpower_positive (1 + K / m) (N * m + 1)) as Hp.
  field. repeat split; lra.
Qed.

Lemma IRR_2_recursive (K m N : R) :
  0 < K -> 0 < m ->
  IRR_2 K m N
    = - 2 * IRR_1 K m N / K
      - N * (N * m + 1) / (K * m * Rpower (1 + K / m) (N * m + 2)).
Proof.
  intros HK Hm. unfold IRR_2.
  rewrite (pow_float_pos (1 + K / m)) by (apply compound_pos; assumption).
  pose proof (Rpower_positive (1 + K / m) (N * m + 2)) as Hp.
  field. repeat split; lra.
Qed.

(** C7: for positive [K], [m], [N], [IRR_1] is the derivative in [K] of
    [IRR_0] and [IRR_2] the derivative of [IRR_1], hence the second
    derivative of [IRR_0]; and the formulas are recursive, [IRR_1] being
    written with [IRR_0] and [IRR_2] with [IRR_1]. *)
Theorem IRR_derivatives_exact :
  forall K m N,
    0 < K -> 0 < m -> 0 < N ->
    derivable_pt_lim (fun k => IRR_0 k m N) K (IRR_1 K m N) /\
    derivable_pt_lim (fun k => IRR_1 k m N) K (IRR_2 K m N) /\
    IRR_1 K m N
      = - IRR_0 K m N / K + N / (K * Rpower (1 + K / m) (N * m + 1)) /\
    IRR_2 K m N
      = - 2 * IRR_1 K m N / K
        - N * (N * m + 1) / (K * m * Rpower (1 + K / m) (N * m + 2)).
Proof.
  intros K m N HK Hm HN.
  split; [apply IRR_0_deriv; assumption |].
  split; [apply IRR_1_deriv; assumption |].
  split; [apply IRR_1_recursive | apply IRR_2_recursive]; assumption.
Qed.

Lemma IRR_derivatives_exact_witness :
  derivable_pt_lim (fun k => IRR_0 k 2 10) 0.05 (IRR_1 0.05 2 10) /\
  derivable_pt_lim (fun k => IRR_1 k 2 10) 0.05 (IRR_2 0.05 2 10) /\
  IRR_1 0.05 2 10
    = - IRR_0 0.05 2 10 / 0.05
      + 10 / (0.05 * Rpower (1 + 0.05 / 2) (10 * 2 + 1)) /\
  IRR_2 0.05 2 10
    = - 2 * IRR_1 0.05 2 10 / 0.05
      - 10 * (10 * 2 + 1) / (0.05 * 2 * Rpower (1 + 0.05 / 2) (10 * 2 + 2)).
Proof.
  apply (IRR_derivatives_exact 0.05 2 10); lra.
Defined.

Lemma IRR_0_near_zero (m N : R) :
  0 < m -> 0 < N ->
  forall eps, 0 < eps ->
    exists delta, 0 < delta /\
      forall K, 0 < K < delta -> Rabs (IRR_0 K m N - N) < eps.
Proof.
  intros Hm HN eps Heps.
  assert (Hu : 0 < 1 + 0 / m) by (unfold Rdiv; rewrite Rmult_0_l; lra).
  pose proof (dlim_compound m (- (m * N)) 0 Hu) as Hd.
  destruct (Hd eps Heps) as [delta Hdelta].
  exists delta. split; [apply cond_pos |].
  intros K [HK0 HKd].
  specialize (Hdelta K (Rgt_not_eq _ _ HK0)).
  assert (HKabs : Rabs K < delta) by (rewrite Rabs_right; lra).
  specialize (Hdelta HKabs).
  rewrite Rplus_0_l in Hdelta.
  replace (1 + 0 / m) with 1 in Hdelta by (unfold Rdiv; ring).
  unfold Rpower in Hdelta at 2 3. rewrite ln_1, !Rmult_0_r, exp_0 in Hdelta.
  rewrite Rpower_Ropp in Hdelta.
  unfold IRR_0. rewrite pow_float_pos by (apply compound_pos; assumption).
  rewrite <- Rabs_Ropp.
  match goal with
  | H : Rabs ?a < eps |- Rabs ?b < eps => replace b with a; [exact H |]
  end.
  field. split; [apply Rgt_not_eq, Rpower_positive | lra].
Qed.

(** C8: for positive [m] and [N], [IRR_0 K m N] tends to [N] as [K] tends
    to zero through positive values. *)
Theorem IRR_0_limit_at_zero :
  forall m N,
    0 < m -> 0 < N ->
    limit1_in (fun K => IRR_0 K m N) (fun K => 0 < K) N 0.
Proof.
  intros m N Hm HN eps Heps.
  destruct (IRR_0_near_zero m N Hm HN eps Heps) as [delta [Hdelta Hclose]].
  exists delta. split; [exact Hdelta |].
  intros K [HK Hdist]. cbn in *. unfold R_dist in *.
  apply Hclose. split; [exact HK |].
  rewrite Rminus_0_r, Rabs_right in Hdist; lra.
Qed.

Lemma IRR_0_limit_at_zero_witness :
  limit1_in (fun K => IRR_0 K 2 10) (fun K => 0 < K) 10 0.
Proof.
  apply (IRR_0_limit_at_zero 2 10); lra.
Defined.

(** ** The replication weight of a linear payoff *)

Lemma Rpower_two (x : R) : 0 < x -> Rpower x 2 = x * x.
Proof.
  intros Hx. replace 2 with (1 + 1) by ring.
  rewrite Rpower_plus, Rpower_1 by exact Hx. reflexivity.
Qed.

Lemma Rpower_three (x : R) : 0 < x -> Rpower x 3 = x * x * x.
Proof.
  intros Hx. replace 3 with (2 + 1) by ring.
  rewrite Rpower_plus, Rpower_two, Rpower_1 by exact Hx. reflexivity.
Qed.

Lemma IRR_0_at_unit : IRR_0 1 1 1 = 1 / 2.
Proof.
  unfold IRR_0.
  replace (1 + 1 / 1) with 2 by lra. replace (1 * 1) with 1 by lra.
  rewrite pow_float_pos, Rpower_1 by lra. lra.
Qed.

Lemma IRR_1_at_unit : IRR_1 1 1 1 = - (1 / 4).
Proof.
  unfold IRR_1. rewrite IRR_0_at_unit.
  replace (1 + 1 / 1) with 2 by lra. replace (1 * 1 + 1) with 2 by lra.
  rewrite pow_float_pos, Rpower_two by lra. lra.
Qed.

Lemma IRR_2_at_unit : IRR_2 1 1 1 = 1 / 4.
Proof.
  unfold IRR_2. rewrite IRR_1_at_unit.
  replace (1 + 1 / 1) with 2 by lra. replace (1 * 1 + 2) with 3 by lra.
  rewrite pow_float_pos, Rpower_three by lra. lra.
Qed.

Lemma h_2_linear_at_unit :
  h_2 linear_payoff 1 1 1 = 2 /\
  - IRR_2 1 1 1 / IRR_0 1 1 1 ^ 2 + 2 * IRR_1 1 1 1 ^ 2 / IRR_0 1 1 1 ^ 3 = 0.
Proof.
  unfold h_2, linear_payoff; cbn [payoff_g_0 payoff_g_1 payoff_g_2].
  rewrite IRR_0_at_unit, IRR_1_at_unit, IRR_2_at_unit.
  split; lra.
Qed.

(** C5, as stated, fails: at [K = m = N = 1] the weight of the linear
    payoff is [2] while the claimed expression is [0]. *)
Lemma h_2_linear_not_pure_convexity :
  h_2 linear_payoff 1 1 1
    <> - IRR_2 1 1 1 / IRR_0 1 1 1 ^ 2
       + 2 * IRR_1 1 1 1 ^ 2 / IRR_0 1 1 1 ^ 3.
Proof.
  destruct h_2_linear_at_unit as [-> ->]. lra.
Qed.

(** C5, amended: with the linear payoff [g(K) = K] the weight is
    [(- K IRR_2 - 2 IRR_1) / IRR_0^2 + 2 K IRR_1^2 / IRR_0^3]; the factor
    [K] and the term in [IRR_1] coming from [g_1 = 1] remain. *)
Theorem h_2_linear_payoff :
  forall K m N,
    0 < K -> 0 < m -> 0 < N ->
    h_2 linear_payoff K m N
      = (- K * IRR_2 K m N - 2 * IRR_1 K m N) / IRR_0 K m N ^ 2
        + 2 * K * IRR_1 K m N ^ 2 / IRR_0 K m N ^ 3.
Proof.
  intros K m N _ _ _.
  unfold h_2, linear_payoff; cbn [payoff_g_0 payoff_g_1 payoff_g_2].
  unfold Rdiv. ring.
Qed.

Lemma h_2_linear_payoff_witness :
  h_2 linear_payoff 0.05 2 10
    = (- (0.05) * IRR_2 0.05 2 10 - 2 * IRR_1 0.05 2 10) / IRR_0 0.05 2 10 ^ 2
      + 2 * 0.05 * IRR_1 0.05 2 10 ^ 2 / IRR_0 0.05 2 10 ^ 3.
Proof.
  apply (h_2_linear_payoff 0.05 2 10); lra.
Defined.

(** The expression of the claim is the weight of the constant payoff
    [g(K) = 1]. *)
Lemma h_2_constant_payoff (K m N : R) :
  h_2 (mkPayoff (fun _ => 1) (fun _ => 0) (fun _ => 0)) K m N
    = - IRR_2 K m N / IRR_0 K m N ^ 2
      + 2 * IRR_1 K m N ^ 2 / IRR_0 K m N ^ 3.
Proof.
  unfold h_2; cbn [payoff_g_0 payoff_g_1 payoff_g_2].
  unfold Rdiv. ring.
Qed.

(** ** The replication integrals *)

(** The floor of the notebook, [L = 0.2^4], is the rate at which the
    payoff [g_0] vanishes. *)
Lemma g_0_at_floor : g_0 0.0016 = 0.
Proof.
  unfold g_0. cbv zeta.
  rewrite !pow_float_pos by lra.
  replace 0.0016 with (Rpower 0.2 4)
    by (replace 4 with (2 + 2) by lra;
        rewrite Rpower_plus, Rpower_two by lra; lra).
  replace 0.04 with (Rpower 0.2 2)
    by (rewrite Rpower_two by lra; lra).
  rewrite !Rpower_mult.
  replace (4 * (1 / 4)) with 1 by lra.
  replace (2 * (1 / 2)) with 1 by lra.
  lra.
Qed.

(** C3: whenever the forward swap rate [F] is available from the curve,
    the unrestricted-payoff pricer returns [DF * g_0 F], plus the integral
    over [[1e-6, F]] of [h_2] times the receiver price, plus the integral
    over [[F, +oo)] of [h_2] times the payer price, the integrals being the
    values [quad] gives; the placeholder [second_term] adds nothing. *)
Theorem compute_options_payoff_1_value :
  forall (quad : (R -> R) -> limit -> limit -> R * R) (surface : SabrSurface)
         expiry tenor payment_period discount_factor df_discount_factors F,
    compute_forward_swap_rate
      expiry tenor df_discount_factors payment_period payment_period = Some F ->
    compute_options_payoff_1
      quad surface expiry tenor payment_period discount_factor df_discount_factors
    = Some
        (discount_factor * g_0 F
         + fst (quad
                  (fun x =>
                     h_2 notebook_payoff x (1 / payment_period) tenor
                     * irr_settled_option_price
                         discount_factor F x
                         (SABR_model F x expiry
                            (sabr_alpha_interp surface expiry tenor)
                            (sabr_beta_interp surface expiry tenor)
                            (sabr_rho_interp surface expiry tenor)
                            (sabr_nu_interp surface expiry tenor))
                         expiry (1 / payment_period) tenor "receiver")
                  (Fin 1e-6) (Fin F))
         + fst (quad
                  (fun x =>
                     h_2 notebook_payoff x (1 / payment_period) tenor
                     * irr_settled_option_price
                         discount_factor F x
                         (SABR_model F x expiry
                            (sabr_alpha_interp surface expiry tenor)
                            (sabr_beta_interp surface expiry tenor)
                            (sabr_rho_interp surface expiry tenor)
                            (sabr_nu_interp surface expiry tenor))
                         expiry (1 / payment_period) tenor "payer")
                  (Fin F) PInf)).
Proof.
  intros quad surface expiry tenor payment_period discount_factor df F HF.
  unfold compute_options_payoff_1. rewrite HF. cbv zeta.
  f_equal. ring.
Qed.

Lemma sample_curve_terms :
  arange (1 + 0.5) (1 + 1 + 0.5) 0.5
    = Some [1 + 0.5 + INR 0 * 0.5; 1 + 0.5 + INR 1 * 0.5].
Proof.
  unfold arange.
  destruct (Req_EM_T 0.5 0) as [C | _]; [lra |].
  replace (Zceil ((1 + 1 + 0.5 - (1 + 0.5)) / 0.5)) with 2%Z; [reflexivity |].
  symmetry. apply Zceil_eq. lra.
Qed.

Lemma sample_curve_row_1 :
  sample_curve (1 + 0.5 + INR 0 * 0.5) = Some (mkRow 0.03 0.96).
Proof.
  unfold sample_curve; cbn [INR].
  destruct (Req_EM_T (1 + 0.5 + 0 * 0.5) 1.5) as [_ | C]; [reflexivity | lra].
Qed.

Lemma sample_curve_row_2 :
  sample_curve (1 + 0.5 + INR 1 * 0.5) = Some (mkRow 0.05 0.94).
Proof.
  unfold sample_curve; cbn [INR].
  destruct (Req_EM_T (1 + 0.5 + 1 * 0.5) 1.5) as [C | _]; [lra |].
  destruct (Req_EM_T (1 + 0.5 + 1 * 0.5) 2) as [_ | C]; [reflexivity | lra].
Qed.

Lemma sample_forward_swap_rate :
  compute_forward_swap_rate 1 1 sample_curve 0.5 0.5 = Some (379 / 9500).
Proof.
  unfold compute_forward_swap_rate.
  rewrite sample_curve_terms.
  cbn [loc]. rewrite sample_curve_row_1, sample_curve_row_2.
  cbn [Forward_LIBOR Discount_Factor_OIS].
  f_equal. unfold np_sum, series_mul, scale. cbn. lra.
Qed.

Lemma compute_options_payoff_1_value_witness :
  compute_options_payoff_1 midpoint_rule sample_surface 1 1 0.5 0.95 sample_curve
  = Some
      (0.95 * g_0 (379 / 9500)
       + fst (midpoint_rule
                (fun x =>
                   h_2 notebook_payoff x (1 / 0.5) 1
                   * irr_settled_option_price
                       0.95 (379 / 9500) x
                       (SABR_model (379 / 9500) x 1 0.2 0.9 (-0.3) 0.4)
                       1 (1 / 0.5) 1 "receiver")
                (Fin 1e-6) (Fin (379 / 9500)))
       + fst (midpoint_rule
                (fun x =>
                   h_2 notebook_payoff x (1 / 0.5) 1
                   * irr_settled_option_price
                       0.95 (379 / 9500) x
                       (SABR_model (379 / 9500) x 1 0.2 0.9 (-0.3) 0.4)
                       1 (1 / 0.5) 1 "payer")
                (Fin (379 / 9500)) PInf)).
Proof.
  apply (compute_options_payoff_1_value
           midpoint_rule sample_surface 1 1 0.5 0.95 sample_curve (379 / 9500)).
  exact sample_forward_swap_rate.
Defined.

(** What the floored-payoff pricer computes: the integral runs from the
    forward [F], whatever the floor [L]. *)
Lemma compute_options_payoff_2_value
    (quad : (R -> R) -> limit -> limit -> R * R) (surface : SabrSurface)
    (L expiry tenor payment_period discount_factor : R)
    (df_discount_factors : DataFrame) (F : R) :
  compute_forward_swap_rate
    expiry tenor df_discount_factors payment_period payment_period = Some F ->
  compute_options_payoff_2
    quad surface L expiry tenor payment_period discount_factor df_discount_factors
  = Some (floored_replication
            quad surface F L expiry tenor payment_period discount_factor F).
Proof.
  intros HF.
  unfold compute_options_payoff_2, floored_replication. rewrite HF. cbv zeta.
  f_equal. ring.
Qed.

(** C1 at the floor of the notebook, [L = 0.2^4 = 0.0016], on the sample
    curve, whose forward rate is [379/9500]: the pricer integrates from the
    forward and not from the floor, and its result is not, for every
    integrator, the point term plus the integral from [L]. *)
Theorem compute_options_payoff_2_integrates_from_forward :
  (forall quad surface discount_factor,
     compute_options_payoff_2
       quad surface 0.0016 1 1 0.5 discount_factor sample_curve
     = Some (floored_replication
               quad surface (379 / 9500) 0.0016 1 1 0.5 discount_factor
               (379 / 9500)))
  /\ 379 / 9500 <> 0.0016
  /\ ~ (forall quad surface discount_factor,
          compute_options_payoff_2
            quad surface 0.0016 1 1 0.5 discount_factor sample_curve
          = Some (floored_replication
                    quad surface 0.0016 0.0016 1 1 0.5 discount_factor
                    (379 / 9500))).
Proof.
  split; [| split].
  - intros quad surface discount_factor.
    apply compute_options_payoff_2_value, sample_forward_swap_rate.
  - lra.
  - intros Hclaim.
    specialize (Hclaim lower_limit_probe sample_surface 0.95).
    rewrite (compute_options_payoff_2_value _ _ _ _ _ _ _ _ _
               sample_forward_swap_rate) in Hclaim.
    injection Hclaim as Heq.
    unfold floored_replication, lower_limit_probe in Heq.
    cbn [fst] in Heq. lra.
Qed.

(** * Further properties of the pricing functions *)

(** ** The annuity factor: sign, bounds, monotonicity *)

Lemma compound_gt_1 (K m : R) : 0 < K -> 0 < m -> 1 < 1 + K / m.
Proof.
  intros HK Hm.
  assert (0 < K / m) by (apply Rdiv_lt_0_compat; assumption).
  lra.
Qed.

Lemma ln_lt_minus_1 (u : R) : 1 < u -> ln u < u - 1.
Proof.
  intros Hu.
  assert (Hln : 0 < ln u) by (rewrite <- ln_1; apply ln_increasing; lra).
  pose proof (exp_ineq1 (ln u) (Rgt_not_eq _ _ Hln)) as H.
  rewrite exp_ln in H by lra. lra.
Qed.

Lemma ln_gt_1_minus_inv (u : R) : 1 < u -> 1 - / u < ln u.
Proof.
  intros Hu.
  assert (Hln : 0 < ln u) by (rewrite <- ln_1; apply ln_increasing; lra).
  assert (Hne : - ln u <> 0) by lra.
  pose proof (exp_ineq1 (- ln u) Hne) as H.
  rewrite exp_Ropp, exp_ln in H by lra. lra.
Qed.

Lemma Rpower_gt_1 (u y : R) : 1 < u -> 0 < y -> 1 < Rpower u y.
Proof.
  intros Hu Hy.
  rewrite <- (Rpower_O u) by lra.
  apply Rpower_lt; assumption.
Qed.

Lemma discount_below_1 (K m N : R) :
  0 < K -> 0 < m -> 0 < N ->
  0 < / Rpower (1 + K / m) (m * N) < 1.
Proof.
  intros HK Hm HN.
  pose proof (compound_gt_1 K m HK Hm) as Hu.
  assert (Hy : 0 < m * N) by (apply Rmult_lt_0_compat; assumption).
  pose proof (Rpower_gt_1 _ _ Hu Hy) as Hp.
  split; [apply Rinv_0_lt_compat; lra |].
  apply Rmult_lt_reg_r with (Rpower (1 + K / m) (m * N)); [lra |].
  rewrite Rinv_l by lra. lra.
Qed.

Lemma IRR_0_discount_form (K m N : R) :
  0 < K -> 0 < m ->
  IRR_0 K m N = / K * (1 - / Rpower (1 + K / m) (m * N)).
Proof.
  intros HK Hm. unfold IRR_0.
  rewrite pow_float_pos by (apply compound_pos; assumption).
  unfold Rdiv. ring.
Qed.

Lemma IRR_0_positive (K m N : R) :
  0 < K -> 0 < m -> 0 < N -> 0 < IRR_0 K m N.
Proof.
  intros HK Hm HN.
  rewrite IRR_0_discount_form by assumption.
  pose proof (discount_below_1 K m N HK Hm HN) as Hq.
  apply Rmult_lt_0_compat; [apply Rinv_0_lt_compat; exact HK | lra].
Qed.

(** X1: for positive [K], [m], [N] the annuity factor is positive, below
    [1 / K] (the perpetuity) and below [N] (the undiscounted sum). *)
Theorem IRR_0_bounds :
  forall K m N,
    0 < K -> 0 < m -> 0 < N ->
    0 < IRR_0 K m N /\ IRR_0 K m N < / K /\ IRR_0 K m N < N.
Proof.
  intros K m N HK Hm HN.
  split; [apply IRR_0_positive; assumption |].
  pose proof (compound_gt_1 K m HK Hm) as Hu.
  pose proof (discount_below_1 K m N HK Hm HN) as Hq.
  assert (Hy : 0 < m * N) by (apply Rmult_lt_0_compat; assumption).
  assert (HKi : 0 < / K) by (apply Rinv_0_lt_compat; exact HK).
  assert (Hlow : 1 - m * N * ln (1 + K / m) < / Rpower (1 + K / m) (m * N)).
  { rewrite <- Rpower_Ropp. unfold Rpower.
    assert (Hln : 0 < ln (1 + K / m))
      by (rewrite <- ln_1; apply ln_increasing; lra).
    assert (Hne : - (m * N) * ln (1 + K / m) <> 0) by nra.
    pose proof (exp_ineq1 _ Hne). lra. }
  pose proof (ln_lt_minus_1 _ Hu) as Hln.
  assert (HKN : m * N * ln (1 + K / m) < K * N).
  { replace (K * N) with (m * N * (1 + K / m - 1)) by (field; lra).
    apply Rmult_lt_compat_l; assumption. }
  rewrite IRR_0_discount_form by assumption.
  set (q := / Rpower (1 + K / m) (m * N)) in *.
  split.
  - nra.
  - assert (/ K * (1 - q) < / K * (K * N)) by (apply Rmult_lt_compat_l; lra).
    replace (/ K * (K * N)) with N in * by (field; lra). lra.
Qed.

Lemma IRR_0_bounds_witness :
  0 < IRR_0 0.05 2 10 /\ IRR_0 0.05 2 10 < / 0.05 /\ IRR_0 0.05 2 10 < 10.
Proof.
  apply (IRR_0_bounds 0.05 2 10); lra.
Defined.

Lemma IRR_1_negative (K m N : R) :
  0 < K -> 0 < m -> 0 < N -> IRR_1 K m N < 0.
Proof.
  intros HK Hm HN.
  pose proof (compound_gt_1 K m HK Hm) as Hu.
  assert (Hy : 0 < N * m) by (apply Rmult_lt_0_compat; assumption).
  rewrite IRR_1_recursive by assumption.
  unfold IRR_0. rewrite pow_float_pos by lra.
  rewrite Rpower_next by lra.
  replace (m * N) with (N * m) by ring.
  set (u := 1 + K / m) in *.
  pose proof (Rpower_gt_1 _ _ Hu Hy) as Hp.
  assert (Hexp : 1 + N * m * ln u < Rpower u (N * m)).
  { unfold Rpower.
    assert (Hln : 0 < ln u) by (rewrite <- ln_1; apply ln_increasing; lra).
    assert (Hne : N * m * ln u <> 0) by nra.
    apply exp_ineq1; exact Hne. }
  pose proof (ln_gt_1_minus_inv _ Hu) as Hln.
  assert (HNK : N * K / u < N * m * ln u).
  { assert (HKu : K = m * (u - 1)) by (unfold u; field; lra).
    replace (N * K / u) with (N * m * (1 - / u))
      by (rewrite HKu; field; repeat split; lra).
    apply Rmult_lt_compat_l; assumption. }
  set (p := Rpower u (N * m)) in *.
  assert (Hgoal : N / (p * u) < (1 - 1 / p) / K).
  { apply Rmult_lt_reg_r with (K * (p * u));
      [apply Rmult_lt_0_compat; [lra | apply Rmult_lt_0_compat; lra] |].
    replace (N / (p * u) * (K * (p * u))) with (N * K)
      by (field; repeat split; lra).
    replace ((1 - 1 / p) / K * (K * (p * u))) with ((p - 1) * u)
      by (field; repeat split; lra).
    assert (N * K = N * K / u * u) by (field; repeat split; lra).
    nra. }
  replace (- (1 / K * (1 - 1 / p)) / K + N / (K * (p * u)))
    with ((N / (p * u) - (1 - 1 / p) / K) / K) by (field; repeat split; lra).
  apply Rmult_neg_pos; [lra | apply Rinv_0_lt_compat; exact HK].
Qed.

(** X2: the annuity factor falls as the rate rises: [IRR_1] is negative
    at every positive rate, and [IRR_0] is strictly decreasing in [K]. *)
Theorem IRR_0_decreasing_in_rate :
  forall K1 K2 m N,
    0 < K1 -> K1 < K2 -> 0 < m -> 0 < N ->
    IRR_1 K1 m N < 0 /\ IRR_0 K2 m N < IRR_0 K1 m N.
Proof.
  intros K1 K2 m N HK1 HK Hm HN.
  split; [apply IRR_1_negative; assumption |].
  destruct (MVT_cor2 (fun k => IRR_0 k m N) (fun k => IRR_1 k m N) K1 K2 HK)
    as [c [Hc [Hc1 Hc2]]].
  - intros c Hc. apply IRR_0_deriv; lra.
  - assert (Hneg : IRR_1 c m N < 0) by (apply IRR_1_negative; lra).
    cbv beta in Hc. nra.
Qed.

Lemma IRR_0_decreasing_in_rate_witness :
  IRR_1 0.03 2 10 < 0 /\ IRR_0 0.05 2 10 < IRR_0 0.03 2 10.
Proof.
  apply (IRR_0_decreasing_in_rate 0.03 0.05 2 10); lra.
Defined.

(** X3: at a positive rate and frequency, a longer tenor gives a larger
    annuity factor. *)
Theorem IRR_0_increasing_in_tenor :
  forall K m N1 N2,
    0 < K -> 0 < m -> N1 < N2 -> IRR_0 K m N1 < IRR_0 K m N2.
Proof.
  intros K m N1 N2 HK Hm HN.
  pose proof (compound_gt_1 K m HK Hm) as Hu.
  rewrite !IRR_0_discount_form by assumption.
  assert (Hy : m * N1 < m * N2) by (apply Rmult_lt_compat_l; assumption).
  pose proof (Rpower_lt _ _ _ Hu Hy) as Hp.
  pose proof (Rpower_positive (1 + K / m) (m * N1)) as Hp1.
  assert (Hinv : / Rpower (1 + K / m) (m * N2) < / Rpower (1 + K / m) (m * N1)).
  { apply Rinv_lt_contravar; [apply Rmult_lt_0_compat; lra | exact Hp]. }
  assert (HKi : 0 < / K) by (apply Rinv_0_lt_compat; exact HK).
  apply Rmult_lt_compat_l; lra.
Qed.

Lemma IRR_0_increasing_in_tenor_witness :
  IRR_0 0.05 2 5 < IRR_0 0.05 2 10.
Proof.
  apply (IRR_0_increasing_in_tenor 0.05 2 5 10); lra.
Defined.

Lemma annuity_pv_closed_form (K m : R) (n : nat) :
  0 < K -> 0 < m ->
  annuity_pv K m n = 1 / K * (1 - 1 / (1 + K / m) ^ n).
Proof.
  intros HK Hm.
  pose proof (compound_gt_1 K m HK Hm) as Hu.
  induction n as [| n IH].
  - simpl. field. lra.
  - cbn [annuity_pv]. rewrite IH.
    assert (Hpow : (1 + K / m) ^ n <> 0) by (apply pow_nonzero; lra).
    assert (Hu' : 1 + K / m <> 0) by lra.
    set (u := 1 + K / m) in *.
    assert (HKu : K = m * (u - 1)) by (unfold u; field; lra).
    simpl pow.
    set (p := u ^ n) in *.
    rewrite HKu. field. repeat split; lra.
Qed.

(** X4: when [m * N] is a whole number [n] of periods, [IRR_0 K m N] is
    the sum of [n] payments of [1 / m], the [i]-th discounted by
    [(1 + K / m) ^ i]. *)
Theorem IRR_0_is_annuity_sum :
  forall K m N (n : nat),
    0 < K -> 0 < m -> m * N = INR n ->
    IRR_0 K m N = annuity_pv K m n.
Proof.
  intros K m N n HK Hm Hn.
  pose proof (compound_gt_1 K m HK Hm) as Hu.
  rewrite annuity_pv_closed_form by assumption.
  unfold IRR_0. rewrite pow_float_pos, Hn, Rpower_pow by lra.
  reflexivity.
Qed.

Lemma IRR_0_is_annuity_sum_witness :
  IRR_0 0.05 2 2 = annuity_pv 0.05 2 4.
Proof.
  apply (IRR_0_is_annuity_sum 0.05 2 2 4); [lra | lra | cbn [INR]; lra].
Defined.

(** ** The payoff and the replication weights as derivatives *)

Lemma dlim_pow_float (y K : R) :
  0 < K ->
  derivable_pt_lim (fun k => pow_float k y) K (y * Rpower K (y - 1)).
Proof.
  intros HK.
  apply (derivable_pt_lim_locally_ext (fun k => Rpower k y) _ K (K / 2) (K + 1));
    [lra | |].
  - intros z Hz. symmetry. apply pow_float_pos. lra.
  - apply derivable_pt_lim_power. exact HK.
Qed.

Lemma g_0_deriv (K : R) : 0 < K -> derivable_pt_lim g_0 K (g_1 K).
Proof.
  intros HK. unfold g_0, g_1. cbv zeta.
  eapply dlim_value.
  - apply dlim_minus; [apply dlim_pow_float; exact HK | apply dlim_const].
  - rewrite pow_float_pos by exact HK. ring.
Qed.

Lemma g_1_deriv (K : R) : 0 < K -> derivable_pt_lim g_1 K (g_2 K).
Proof.
  intros HK. unfold g_1, g_2. cbv zeta.
  eapply dlim_value.
  - apply dlim_mult; [apply dlim_const | apply dlim_pow_float; exact HK].
  - rewrite pow_float_pos by exact HK.
    replace (1 / 4 - 1 - 1) with (1 / 4 - 2) by lra. ring.
Qed.

(** X5: at every positive rate, [g_1] is the derivative of the payoff
    [g_0] and [g_2] the derivative of [g_1]. *)
Theorem payoff_derivatives_exact :
  forall K,
    0 < K ->
    derivable_pt_lim g_0 K (g_1 K) /\ derivable_pt_lim g_1 K (g_2 K).
Proof.
  intros K HK. split.
  - apply g_0_deriv; exact HK.
  - apply g_1_deriv; exact HK.
Qed.

Lemma payoff_derivatives_exact_witness :
  derivable_pt_lim g_0 0.04 (g_1 0.04) /\ derivable_pt_lim g_1 0.04 (g_2 0.04).
Proof.
  apply (payoff_derivatives_exact 0.04); lra.
Defined.

(** X6: for positive [K], [m], [N] and any payoff whose [g_1] is the
    derivative of its [g_0] at [K], [h_1] is the derivative in [K] of
    [h_0 = g_0 / IRR_0]. *)
Theorem h_1_is_derivative_of_h_0 :
  forall (g : Payoff) K m N,
    0 < K -> 0 < m -> 0 < N ->
    derivable_pt_lim (payoff_g_0 g) K (payoff_g_1 g K) ->
    derivable_pt_lim (fun k => h_0 g k m N) K (h_1 g K m N).
Proof.
  intros g K m N HK Hm HN Hg.
  pose proof (IRR_0_positive K m N HK Hm HN) as Hpos.
  unfold h_0, h_1.
  eapply dlim_value.
  - apply dlim_div; [exact Hg | apply IRR_0_deriv; assumption | lra].
  - cbv beta. unfold Rsqr. field. lra.
Qed.

Lemma h_1_is_derivative_of_h_0_witness :
  derivable_pt_lim (fun k => h_0 notebook_payoff k 2 10) 0.04
    (h_1 notebook_payoff 0.04 2 10).
Proof.
  apply (h_1_is_derivative_of_h_0 notebook_payoff 0.04 2 10); try lra.
  apply g_0_deriv. lra.
Defined.

(** X7: under the same conditions, and [g_2] being the derivative of
    [g_1] at [K], the integrand weight [h_2] is the derivative in [K] of
    [h_1], hence the second derivative of [h_0]. *)
Theorem h_2_is_derivative_of_h_1 :
  forall (g : Payoff) K m N,
    0 < K -> 0 < m -> 0 < N ->
    derivable_pt_lim (payoff_g_0 g) K (payoff_g_1 g K) ->
    derivable_pt_lim (payoff_g_1 g) K (payoff_g_2 g K) ->
    derivable_pt_lim (fun k => h_1 g k m N) K (h_2 g K m N).
Proof.
  intros g K m N HK Hm HN Hg0 Hg1.
  pose proof (IRR_0_positive K m N HK Hm HN) as Hpos.
  pose proof (IRR_0_deriv K m N HK Hm HN) as HI0.
  pose proof (IRR_1_deriv K m N HK Hm HN) as HI1.
  apply (derivable_pt_lim_ext
           (fun k => (IRR_0 k m N * payoff_g_1 g k - payoff_g_0 g k * IRR_1 k m N)
                     / (IRR_0 k m N * IRR_0 k m N))).
  - intros z. unfold h_1. simpl pow. rewrite Rmult_1_r. reflexivity.
  - unfold h_2.
    eapply dlim_value.
    + apply dlim_div.
      * apply dlim_minus; apply dlim_mult; eassumption.
      * apply dlim_mult; eassumption.
      * cbv beta. nra.
    + cbv beta. unfold Rsqr. field. lra.
Qed.

Lemma h_2_is_derivative_of_h_1_witness :
  derivable_pt_lim (fun k => h_1 notebook_payoff k 2 10) 0.04
    (h_2 notebook_payoff 0.04 2 10).
Proof.
  apply (h_2_is_derivative_of_h_1 notebook_payoff 0.04 2 10); try lra.
  - apply g_0_deriv. lra.
  - apply g_1_deriv. lra.
Defined.

Lemma g_0_difference (K : R) :
  0 < K -> g_0 K = Rpower K (1 / 4) - Rpower 0.0016 (1 / 4).
Proof.
  intros HK.
  pose proof g_0_at_floor as H0.
  unfold g_0 in *. cbv zeta in *.
  rewrite (pow_float_pos 0.0016) in H0 by lra.
  rewrite (pow_float_pos K) by exact HK.
  lra.
Qed.

(** X8: the payoff [g_0] changes sign at the rate [0.0016 = 0.2^4]: for a
    positive rate it is positive exactly above it, zero exactly at it and
    negative exactly below it. *)
Theorem payoff_sign :
  forall K,
    0 < K ->
    (0 < g_0 K <-> 0.0016 < K) /\
    (g_0 K = 0 <-> K = 0.0016) /\
    (g_0 K < 0 <-> K < 0.0016).
Proof.
  intros K HK. rewrite g_0_difference by exact HK.
  assert (Hup : 0.0016 < K -> Rpower 0.0016 (1 / 4) < Rpower K (1 / 4))
    by (intros H; apply Rlt_Rpower_l; lra).
  assert (Hdn : K < 0.0016 -> Rpower K (1 / 4) < Rpower 0.0016 (1 / 4))
    by (intros H; apply Rlt_Rpower_l; lra).
  assert (Heq : K = 0.0016 -> Rpower K (1 / 4) = Rpower 0.0016 (1 / 4))
    by (intros ->; reflexivity).
  destruct (Rtotal_order K 0.0016) as [H | [H | H]];
    repeat split; intros; try lra;
    try (specialize (Hup ltac:(lra)); lra);
    try (specialize (Hdn ltac:(lra)); lra);
    try (specialize (Heq ltac:(lra)); lra).
Qed.

Lemma payoff_sign_witness :
  (0 < g_0 0.04 <-> 0.0016 < 0.04) /\
  (g_0 0.04 = 0 <-> 0.04 = 0.0016) /\
  (g_0 0.04 < 0 <-> 0.04 < 0.0016).
Proof.
  apply (payoff_sign 0.04); lra.
Defined.

(** ** The payment grid and the curve lookups *)


Lemma Zceil_pos (x : R) : 0 < x -> (1 <= Zceil x)%Z.
Proof.
  intros Hx.
  pose proof (Zceil_bound x) as Hb.
  assert (H0 : 0 < IZR (Zceil x)) by lra.
  apply lt_IZR in H0. lia.
Qed.


Lemma Zceil_INR (n : nat) : Zceil (INR n) = Z.of_nat n.
Proof.
  apply Zceil_eq. rewrite <- INR_IZR_INZ. lra.
Qed.

Lemma arange_nonempty (start stop step : R) :
  0 < step -> start < stop ->
  exists rest, arange start stop step = Some (start :: rest).
Proof.
  intros Hs Hlt. unfold arange.
  destruct (Req_EM_T step 0) as [C | _]; [lra |].
  assert (Hx : 0 < (stop - start) / step) by (apply Rdiv_lt_0_compat; lra).
  pose proof (Zceil_pos _ Hx) as Hz.
  destruct (Z.to_nat (Zceil ((stop - start) / step))) as [| n] eqn:En; [lia |].
  cbn [seq map]. eexists. f_equal. f_equal. cbn [INR]. ring.
Qed.



Lemma swap_grid (expiry tenor period : R) (n : nat) :
  0 < period -> tenor = INR n * period ->
  arange (expiry + period) (expiry + tenor + period) period
    = Some (map (fun i => expiry + period + INR i * period) (seq 0 n)).
Proof.
  intros Hp Ht. unfold arange.
  destruct (Req_EM_T period 0) as [C | _]; [lra |].
  replace ((expiry + tenor + period - (expiry + period)) / period) with (INR n)
    by (rewrite Ht; field; lra).
  rewrite Zceil_INR, Nat2Z.id. reflexivity.
Qed.



Lemma loc_rows_at (df : DataFrame) (labels : list R) (column : Row -> R) :
  loc df labels column = option_map (map column) (rows_at df labels).
Proof.
  induction labels as [| t rest IH]; [reflexivity |].
  cbn [loc rows_at]. rewrite IH.
  destruct (df t) as [row |]; [| reflexivity].
  destruct (rows_at df rest) as [rows |]; reflexivity.
Qed.

Lemma rows_at_none (df : DataFrame) (labels : list R) :
  rows_at df labels = None <-> exists t, In t labels /\ df t = None.
Proof.
  induction labels as [| t rest IH].
  - split; [discriminate | intros [t [[] _]]].
  - cbn [rows_at]. destruct (df t) as [row |] eqn:Et.
    + destruct (rows_at df rest) as [rows |].
      * split; [discriminate |].
        intros [u [[<- | Hu] Hnone]]; [congruence |].
        destruct IH as [_ IH]. discriminate IH. exists u. split; assumption.
      * split; [| reflexivity]. intros _.
        destruct IH as [IH _]. destruct (IH eq_refl) as [u [Hu Hnone]].
        exists u. split; [right; exact Hu | exact Hnone].
    + split; [| reflexivity]. intros _.
      exists t. split; [left; reflexivity | exact Et].
Qed.

Lemma rows_at_some (df : DataFrame) (labels : list R) (rows : list Row) :
  rows_at df labels = Some rows ->
  Forall2 (fun t row => df t = Some row) labels rows.
Proof.
  revert rows. induction labels as [| t rest IH]; intros rows H.
  - injection H as <-. constructor.
  - cbn [rows_at] in H. destruct (df t) as [row |] eqn:Et; [| discriminate].
    destruct (rows_at df rest) as [rs |]; [| discriminate].
    injection H as <-. constructor; [exact Et | apply IH; reflexivity].
Qed.

Lemma loc_missing (df : DataFrame) (labels : list R) (column : Row -> R) (t : R) :
  In t labels -> df t = None -> loc df labels column = None.
Proof.
  intros Hin Hnone. rewrite loc_rows_at.
  replace (rows_at df labels) with (@None (list Row)); [reflexivity |].
  symmetry. apply rows_at_none. exists t. split; assumption.
Qed.

(** X11: the lookup [df.loc[labels, column]] fails exactly when some label
    is absent from the curve; when it succeeds it returns, label by label
    and in order, the column value of the row stored at that label. *)
Theorem loc_result :
  forall (df : DataFrame) (labels : list R) (column : Row -> R),
    (loc df labels column = None <-> exists t, In t labels /\ df t = None) /\
    (forall vs,
       loc df labels column = Some vs ->
       Forall2 (fun t v => exists row, df t = Some row /\ v = column row)
               labels vs).
Proof.
  intros df labels column. split.
  - rewrite loc_rows_at, <- rows_at_none.
    destruct (rows_at df labels); cbn; split; congruence.
  - intros vs. rewrite loc_rows_at.
    destruct (rows_at df labels) as [rows |] eqn:E; [| discriminate].
    cbn. intros H. injection H as <-.
    apply rows_at_some in E.
    induction E as [| t row ls rows Ht _ IH]; cbn; constructor.
    + exists row. split; [exact Ht | reflexivity].
    + exact IH.
Qed.

Lemma fold_left_Rplus_acc (xs : list R) (a : R) :
  fold_left Rplus xs a = a + fold_left Rplus xs 0.
Proof.
  revert a. induction xs as [| x xs IH]; intros a; cbn.
  - ring.
  - rewrite (IH (a + x)), (IH (0 + x)). ring.
Qed.

Lemma np_sum_cons (x : R) (xs : list R) : np_sum (x :: xs) = x + np_sum xs.
Proof.
  unfold np_sum. cbn. rewrite fold_left_Rplus_acc. ring.
Qed.

(** The two leg values over the same rows: the floating leg lies between
    the fixed leg scaled by the lowest and by the highest forward rate. *)
Lemma leg_sums_bounds (period lo hi : R) (rows : list Row) :
  0 < period ->
  Forall (fun row => 0 < Discount_Factor_OIS row
                     /\ lo <= Forward_LIBOR row <= hi) rows ->
  (lo * np_sum (scale period (map Discount_Factor_OIS rows))
   <= np_sum (series_mul (scale period (map Forward_LIBOR rows))
                         (map Discount_Factor_OIS rows))
   <= hi * np_sum (scale period (map Discount_Factor_OIS rows)))
  /\ (rows <> [] -> 0 < np_sum (scale period (map Discount_Factor_OIS rows))).
Proof.
  intros Hp Hall.
  induction Hall as [| row rows [HD [Hlo Hhi]] _ IH].
  - unfold np_sum, series_mul, scale; cbn. rewrite !Rmult_0_r.
    split; [split; apply Rle_refl | intros C; contradiction C; reflexivity].
  - unfold series_mul, scale in *. cbn [map combine fst snd].
    rewrite !np_sum_cons.
    destruct IH as [[IH1 IH2] IH3].
    set (den := np_sum (map (Rmult period) (map Discount_Factor_OIS rows))) in *.
    set (num := np_sum (map _ (combine _ _))) in *.
    assert (Hden : 0 <= den).
    { destruct rows as [| r rs]; [unfold den, np_sum; cbn; lra |].
      left. apply IH3. discriminate. }
    assert (HpD : 0 < period * Discount_Factor_OIS row)
      by (apply Rmult_lt_0_compat; assumption).
    replace (period * Forward_LIBOR row * Discount_Factor_OIS row)
      with (Forward_LIBOR row * (period * Discount_Factor_OIS row)) by ring.
    split; [split; nra | intros _; lra].
Qed.

(** X12: with equal leg periods, a positive period and tenor, positive
    discount factors and forward rates between [lo] and [hi] on the curve,
    the forward swap rate, when it is returned, lies between [lo] and
    [hi]: it is an average of the forward rates weighted by the discount
    factors. *)
Theorem forward_swap_rate_between_forward_rates :
  forall expiry tenor period lo hi (df : DataFrame) F,
    0 < period -> 0 < tenor ->
    (forall t row, df t = Some row ->
       0 < Discount_Factor_OIS row /\ lo <= Forward_LIBOR row <= hi) ->
    compute_forward_swap_rate expiry tenor df period period = Some F ->
    lo <= F <= hi.
Proof.
  intros expiry tenor period lo hi df F Hp Ht Hcurve HF.
  unfold compute_forward_swap_rate in HF.
  destruct (arange_nonempty (expiry + period) (expiry + tenor + period) period Hp)
    as [rest Hls]; [lra |].
  rewrite Hls in HF.
  rewrite !loc_rows_at in HF.
  destruct (rows_at df (expiry + period :: rest)) as [rows |] eqn:Erows;
    [| discriminate].
  cbn [option_map] in HF. injection HF as <-.
  apply rows_at_some in Erows.
  assert (Hrows : rows <> []) by (inversion Erows; discriminate).
  assert (Hall : Forall (fun row => 0 < Discount_Factor_OIS row
                                    /\ lo <= Forward_LIBOR row <= hi) rows).
  { clear Hrows Hls.
    induction Erows as [| t row ls rows Hrow _ IH]; constructor.
    - apply (Hcurve t row Hrow).
    - exact IH. }
  destruct (leg_sums_bounds period lo hi rows Hp Hall) as [[H1 H2] H3].
  specialize (H3 Hrows).
  set (den := np_sum (scale period (map Discount_Factor_OIS rows))) in *.
  set (num := np_sum (series_mul _ _)) in *.
  split; apply Rmult_le_reg_r with den; try exact H3;
    replace (num / den * den) with num by (field; lra); assumption.
Qed.

Lemma sample_curve_rows (t : R) (row : Row) :
  sample_curve t = Some row ->
  0 < Discount_Factor_OIS row /\ 0.03 <= Forward_LIBOR row <= 0.05.
Proof.
  unfold sample_curve. intros H.
  destruct (Req_EM_T t 1.5); [injection H as <-; cbn; lra |].
  destruct (Req_EM_T t 2); [injection H as <-; cbn; lra | discriminate].
Qed.

Lemma forward_swap_rate_between_forward_rates_witness :
  0.03 <= 379 / 9500 <= 0.05.
Proof.
  apply (forward_swap_rate_between_forward_rates
           1 1 0.5 0.03 0.05 sample_curve (379 / 9500)).
  - lra.
  - lra.
  - exact sample_curve_rows.
  - exact sample_forward_swap_rate.
Defined.

(** X13: [compute_forward_swap_rate] fails as soon as one date of the
    floating-leg grid or of the fixed-leg grid is absent from the curve. *)
Theorem forward_swap_rate_missing_date :
  forall expiry tenor floating_leg_period fixed_leg_period
         (df : DataFrame) (dates : list R) (t : R),
    arange (expiry + floating_leg_period) (expiry + tenor + floating_leg_period)
           floating_leg_period = Some dates
    \/ arange (expiry + fixed_leg_period) (expiry + tenor + fixed_leg_period)
              fixed_leg_period = Some dates ->
    In t dates -> df t = None ->
    compute_forward_swap_rate
      expiry tenor df floating_leg_period fixed_leg_period = None.
Proof.
  intros expiry tenor pfl pfx df dates t Hgrid Hin Hnone.
  assert (Hloc : forall column, loc df dates column = None)
    by (intros column; apply (loc_missing df dates column t); assumption).
  unfold compute_forward_swap_rate.
  destruct Hgrid as [-> | Hfix].
  - destruct (arange (expiry + pfx) _ _); [| reflexivity].
    rewrite !Hloc. reflexivity.
  - rewrite Hfix.
    destruct (arange (expiry + pfl) _ _) as [fl |]; [| reflexivity].
    rewrite (Hloc Discount_Factor_OIS).
    destruct (loc df fl Forward_LIBOR); [| reflexivity].
    destruct (loc df fl Discount_Factor_OIS); reflexivity.
Qed.

Lemma sample_long_grid :
  arange (1 + 0.5) (1 + 2 + 0.5) 0.5
    = Some (map (fun i => 1 + 0.5 + INR i * 0.5) (seq 0 4)).
Proof.
  apply swap_grid; [lra | cbn [INR]; lra].
Qed.

Lemma sample_long_grid_date :
  In (1 + 0.5 + INR 2 * 0.5) (map (fun i => 1 + 0.5 + INR i * 0.5) (seq 0 4)).
Proof.
  cbn [seq map]. right. right. left. reflexivity.
Qed.

Lemma sample_curve_gap : sample_curve (1 + 0.5 + INR 2 * 0.5) = None.
Proof.
  unfold sample_curve. cbn [INR].
  destruct (Req_EM_T (1 + 0.5 + (1 + 1) * 0.5) 1.5) as [C | _]; [lra |].
  destruct (Req_EM_T (1 + 0.5 + (1 + 1) * 0.5) 2) as [C | _]; [lra |].
  reflexivity.
Qed.

Lemma forward_swap_rate_missing_date_witness :
  compute_forward_swap_rate 1 2 sample_curve 0.5 0.5 = None.
Proof.
  apply (forward_swap_rate_missing_date
           1 2 0.5 0.5 sample_curve
           (map (fun i => 1 + 0.5 + INR i * 0.5) (seq 0 4))
           (1 + 0.5 + INR 2 * 0.5)).
  - left. exact sample_long_grid.
  - exact sample_long_grid_date.
  - exact sample_curve_gap.
Defined.

(** X14: both pricers fail, without calling the integrator, when a
    payment date of the grid is absent from the curve. *)
Theorem pricers_fail_on_missing_date :
  forall (quad : (R -> R) -> limit -> limit -> R * R) (surface : SabrSurface)
         L expiry tenor payment_period discount_factor
         (df : DataFrame) (dates : list R) (t : R),
    arange (expiry + payment_period) (expiry + tenor + payment_period)
           payment_period = Some dates ->
    In t dates -> df t = None ->
    compute_options_payoff_1
      quad surface expiry tenor payment_period discount_factor df = None /\
    compute_options_payoff_2
      quad surface L expiry tenor payment_period discount_factor df = None.
Proof.
  intros quad surface L expiry tenor p DF df dates t Hgrid Hin Hnone.
  assert (HF : compute_forward_swap_rate expiry tenor df p p = None).
  { unfold compute_forward_swap_rate. rewrite Hgrid.
    rewrite (loc_missing df dates Forward_LIBOR t Hin Hnone). reflexivity. }
  unfold compute_options_payoff_1, compute_options_payoff_2.
  rewrite HF. split; reflexivity.
Qed.

Lemma pricers_fail_on_missing_date_witness :
  compute_options_payoff_1
    midpoint_rule sample_surface 1 2 0.5 0.95 sample_curve = None /\
  compute_options_payoff_2
    midpoint_rule sample_surface 0.0016 1 2 0.5 0.95 sample_curve = None.
Proof.
  apply (pricers_fail_on_missing_date
           midpoint_rule sample_surface 0.0016 1 2 0.5 0.95 sample_curve
           (map (fun i => 1 + 0.5 + INR i * 0.5) (seq 0 4))
           (1 + 0.5 + INR 2 * 0.5)).
  - exact sample_long_grid.
  - exact sample_long_grid_date.
  - exact sample_curve_gap.
Defined.

(** ** Swaptions struck at the forward *)

Lemma black76_atm_d1 (F sigma T : R) :
  0 < F -> 0 < sigma -> 0 < T ->
  Black76._calculate_d1 F F sigma T = sigma * sqrt T / 2.
Proof.
  intros HF Hs HT. unfold Black76._calculate_d1.
  replace (F / F) with 1 by (field; lra). rewrite ln_1.
  pose proof (sqrt_lt_R0 T HT) as Hsq.
  pose proof (sqrt_sqrt T (Rlt_le _ _ HT)) as Hsq2.
  set (s := sqrt T) in *.
  rewrite <- Hsq2. field. split; lra.
Qed.

Lemma irr_settled_atm_value (discount_factor F sigma T m N : R) (side : string) :
  0 < F -> 0 < sigma -> 0 < T ->
  irr_settled_option_price discount_factor F F sigma T m N side
    = discount_factor * IRR_0 F m N
      * (F * (2 * norm_cdf (sigma * sqrt T / 2) - 1)).
Proof.
  intros HF Hs HT.
  unfold irr_settled_option_price, black_model, Black76.init,
    Black76.calculate_put_price, Black76.calculate_call_price.
  cbn [Black76.F Black76.K Black76.d1 Black76.d2 Black76.discount_factor].
  unfold Black76._calculate_d2.
  rewrite black76_atm_d1 by assumption.
  set (d := sigma * sqrt T / 2).
  replace (d - sigma * sqrt T) with (- d) by (unfold d; lra).
  rewrite Ropp_involutive.
  pose proof (norm_cdf_symmetry d) as Hsym.
  replace (norm_cdf (- d)) with (1 - norm_cdf d) by lra.
  destruct (String.eqb side "receiver"); ring.
Qed.

(** X15: struck at the forward ([K = F]), with positive [F], [sigma] and
    [T], the payer and the receiver swaption have the same price,
    [DF * IRR_0(F, m, N) * F * (2 Phi(sigma sqrt(T) / 2) - 1)]. *)
Theorem irr_settled_price_at_the_money :
  forall discount_factor F sigma T m N,
    0 < F -> 0 < sigma -> 0 < T ->
    irr_settled_option_price discount_factor F F sigma T m N "payer"
      = irr_settled_option_price discount_factor F F sigma T m N "receiver"
    /\ irr_settled_option_price discount_factor F F sigma T m N "payer"
      = discount_factor * IRR_0 F m N
        * (F * (2 * norm_cdf (sigma * sqrt T / 2) - 1)).
Proof.
  intros discount_factor F sigma T m N HF Hs HT.
  rewrite !irr_settled_atm_value by assumption.
  split; reflexivity.
Qed.

Lemma irr_settled_price_at_the_money_witness :
  irr_settled_option_price 0.9 0.04 0.04 0.2 5 2 10 "payer"
    = irr_settled_option_price 0.9 0.04 0.04 0.2 5 2 10 "receiver"
  /\ irr_settled_option_price 0.9 0.04 0.04 0.2 5 2 10 "payer"
    = 0.9 * IRR_0 0.04 2 10 * (0.04 * (2 * norm_cdf (0.2 * sqrt 5 / 2) - 1)).
Proof.
  apply (irr_settled_price_at_the_money 0.9 0.04 0.2 5 2 10); lra.
Defined.

Lemma norm_pdf_pos (t : R) : 0 < norm_pdf t.
Proof.
  unfold norm_pdf. apply Rdiv_lt_0_compat; [apply exp_pos |].
  apply sqrt_lt_R0. pose proof PI_RGT_0. lra.
Qed.

Lemma norm_pdf_decreasing (t d : R) : 0 <= t <= d -> norm_pdf d <= norm_pdf t.
Proof.
  intros Htd. unfold norm_pdf.
  assert (Hs : 0 < / sqrt (2 * PI)).
  { apply Rinv_0_lt_compat, sqrt_lt_R0. pose proof PI_RGT_0. lra. }
  unfold Rdiv. apply Rmult_le_compat_r; [lra |].
  destruct (Req_dec t d) as [-> | Hne]; [apply Rle_refl |].
  left. apply exp_increasing. nra.
Qed.

(** The distribution function exceeds one half to the right of the
    origin: the density is at least [norm_pdf d] on [[0, d]]. *)
Lemma norm_cdf_above_half (d : R) : 0 < d -> 1 / 2 < norm_cdf d.
Proof.
  intros Hd. unfold norm_cdf, integral.
  pose proof (RiemannInt_P19
                (RiemannInt_P14 0 d (norm_pdf d))
                (continuity_integrable norm_pdf norm_pdf_continuity 0 d)
                (Rlt_le _ _ Hd)) as Hle.
  rewrite RiemannInt_P15 in Hle.
  assert (Hmono : forall x, 0 < x < d -> fct_cte (norm_pdf d) x <= norm_pdf x).
  { intros x Hx. unfold fct_cte. apply norm_pdf_decreasing. lra. }
  specialize (Hle Hmono).
  pose proof (norm_pdf_pos d) as Hpos.
  assert (0 < norm_pdf d * (d - 0)) by (apply Rmult_lt_0_compat; lra).
  lra.
Qed.

(** X16: struck at the forward, with a positive discount factor and
    positive [F], [sigma], [T], [m], [N], the price is strictly positive,
    whatever the side selector. *)
Theorem irr_settled_price_at_the_money_positive :
  forall discount_factor F sigma T m N (swaption_type : string),
    0 < discount_factor -> 0 < F -> 0 < sigma -> 0 < T -> 0 < m -> 0 < N ->
    0 < irr_settled_option_price discount_factor F F sigma T m N swaption_type.
Proof.
  intros discount_factor F sigma T m N side HDF HF Hs HT Hm HN.
  rewrite irr_settled_atm_value by assumption.
  pose proof (IRR_0_positive F m N HF Hm HN) as HI.
  assert (Hd : 0 < sigma * sqrt T / 2).
  { pose proof (sqrt_lt_R0 T HT).
    assert (0 < sigma * sqrt T) by (apply Rmult_lt_0_compat; assumption). lra. }
  pose proof (norm_cdf_above_half _ Hd) as Hphi.
  apply Rmult_lt_0_compat; [apply Rmult_lt_0_compat; assumption |].
  apply Rmult_lt_0_compat; lra.
Qed.

Lemma irr_settled_price_at_the_money_positive_witness :
  0 < irr_settled_option_price 0.9 0.04 0.04 0.2 5 2 10 "receiver".
Proof.
  apply (irr_settled_price_at_the_money_positive 0.9 0.04 0.2 5 2 10 "receiver");
    lra.
Defined.

(** ** The lognormal SABR model *)

Lemma pow_float_zero_exponent (x : R) : pow_float x 0 = 1.
Proof.
  unfold pow_float.
  destruct (Req_EM_T x 0) as [_ | _].
  - destruct (Req_EM_T 0 0) as [_ | C]; [reflexivity | contradiction C; reflexivity].
  - unfold Rpower. rewrite Rmult_0_l. apply exp_0.
Qed.

(** X17: for [beta = 1] the forward drops out of the at-the-money branch,
    which returns [alpha (1 + (rho nu alpha / 4 + (2 - 3 rho^2) nu^2 / 24) T)]
    for every [F]; outside the band the result is that volatility times
    [z / chi(z)] with [z = (nu / alpha) ln (F / K)]. *)
Theorem SABR_model_lognormal :
  forall F K T alpha rho nu,
    SABR_model F K T alpha 1 rho nu
      = if Rlt_dec (Rabs (F - K)) 1e-12
        then lognormal_atm_vol T alpha rho nu
        else
          lognormal_atm_vol T alpha rho nu
          * (nu / alpha * ln (F / K))
          / ln ((pow_float (1 - 2 * rho * (nu / alpha * ln (F / K))
                            + (nu / alpha * ln (F / K)) ^ 2) 0.5
                 + nu / alpha * ln (F / K) - rho) / (1 - rho)).
Proof.
  intros F K T alpha rho nu.
  unfold SABR_model, lognormal_atm_vol.
  destruct (Rlt_dec (Rabs (F - K)) 1e-12) as [Hin | Hout]; cbv zeta.
  - replace (2 - 2 * 1) with 0 by lra. replace (1 - 1) with 0 by lra.
    rewrite !pow_float_zero_exponent. unfold Rdiv. rewrite Rinv_1.
    replace 0.25 with (/ 4) by lra. ring.
  - replace ((1 - 1) / 2) with 0 by lra.
    replace (0.5 * (1 - 1)) with 0 by lra.
    replace (1 - 1) with 0 by lra.
    rewrite !pow_float_zero_exponent.
    set (z := nu / alpha * ln (F / K)).
    replace (nu / alpha * 1 * ln (F / K)) with z by (unfold z; ring).
    replace (z ^ 2) with (z * z) by ring.
    set (zhi := ln ((pow_float (1 - 2 * rho * z + z * z) 0.5 + z - rho) / (1 - rho))).
    replace (1 * (1 + 0 ^ 2 / 24 * ln (F / K) ^ 2 + 0 ^ 4 / 1920 * ln (F / K) ^ 4) * zhi)
      with zhi by (unfold Rdiv; ring).
    unfold Rdiv. rewrite Rinv_1.
    replace 0.25 with (/ 4) by lra. ring.
Qed.
